(** * music_bot.py: the per-guild playback sequencer

    A shallow embedding of [music_bot.py]: the song record, the
    process-wide [music_queues] dictionary, [format_duration],
    [start_next_song] with its completion callback [_after_play], and the
    slash commands [play_cmd], [skip_cmd], [stop_cmd] and [leave_cmd].

    The discord voice client is an external collaborator.  It is modelled by
    what the source observes of it ([is_connected], [is_playing],
    [is_paused], [channel]) and by the calls the source makes on it ([play],
    [stop], [disconnect], [connect], [move_to]).  Whether building an audio
    source raises, and whether [play] raises, is decided by two oracles,
    section variables. *)

From Stdlib Require Import ZArith String Ascii List.
From stdpp Require Import base gmap strings list pretty.

Local Open Scope Z_scope.

(** ** Data structures *)

(** [discord.abc.User], as far as the bot reads it. *)
Record User := {
  user_id : Z;
  display_name : string;
}.

(** The dataclass [Song]. *)
Record Song := {
  url : string;
  title : string;
  webpage_url : string;
  duration : Z;
  audio_url : string;
  requested_by : User;
}.

#[global] Instance User_eq_dec : EqDecision User.
Proof. solve_decision. Defined.

(** Dataclass equality compares the fields one by one. *)
#[global] Instance Song_eq_dec : EqDecision Song.
Proof. solve_decision. Defined.

(** A raised exception, kept as the text that [print] shows. *)
Inductive Exception := Raised (msg : string).

(** ** format_duration *)

(** Python's [divmod] on integers: floor division and its remainder. *)
Definition divmod (a b : Z) : Z * Z := (a `div` b, a `mod` b).

(** The format spec [02d]: the decimal text, filled with zeros on the left
    up to width two.  A text of two or more characters is left as it is. *)
Definition fmt_02d (k : Z) : string :=
  let s := pretty k in
  string_of_list_ascii (replicate (2 - String.length s)%nat "0"%char) +:+ s.

(** [seconds] is [int | None]; [not seconds] holds for [None] and for 0. *)
Definition format_duration (seconds : option Z) : string :=
  match seconds with
  | None => "unknown"
  | Some n =>
    if n =? 0 then "unknown"
    else
      let '(m, s) := divmod n 60 in
      let '(h, m) := divmod m 60 in
      if negb (h =? 0)
      then pretty h +:+ ":" +:+ fmt_02d m +:+ ":" +:+ fmt_02d s
      else pretty m +:+ ":" +:+ fmt_02d s
  end.

(** The display format in words: a field of exactly two decimal digits. *)
Definition digit_char (d : Z) : ascii :=
  ascii_of_nat (48 + Z.to_nat d).

Definition two_digits (k : Z) : string :=
  String (digit_char (k `div` 10)) (String (digit_char (k `mod` 10)) EmptyString).

Definition h_mm_ss (n : Z) : string :=
  pretty (n `div` 3600) +:+ ":" +:+ two_digits ((n `div` 60) `mod` 60)
    +:+ ":" +:+ two_digits (n `mod` 60).

Definition m_ss (n : Z) : string :=
  pretty (n `div` 60) +:+ ":" +:+ two_digits (n `mod` 60).

(** ** The voice client *)

(** [discord.FFmpegPCMAudio(song.audio_url, ...)]: the source handed to the
    sink is built from the stream URL alone. *)
Inductive AudioSource := FFmpegPCMAudio (stream : string).

#[global] Instance AudioSource_eq_dec : EqDecision AudioSource.
Proof. solve_decision. Defined.

(** The player held by a voice client: none (or one that has ended), one
    that is sounding, or one that is paused. *)
Inductive Player :=
| NoPlayer
| Sounding (src : AudioSource)
| Suspended (src : AudioSource).

(** [discord.VoiceClient], as far as the bot observes it.  [connected] is
    independent of [player]: while the library reconnects, a client reports
    [is_connected() = False] and still holds its player. *)
Record VoiceClient := {
  connected : bool;
  channel : Z;
  player : Player;
}.

Definition is_connected (vc : VoiceClient) : bool := connected vc.

Definition is_playing (vc : VoiceClient) : bool :=
  match player vc with Sounding _ => true | _ => false end.

Definition is_paused (vc : VoiceClient) : bool :=
  match player vc with Suspended _ => true | _ => false end.

Definition with_player (p : Player) (vc : VoiceClient) : VoiceClient :=
  {| connected := connected vc; channel := channel vc; player := p |}.

Definition with_channel (c : Z) (vc : VoiceClient) : VoiceClient :=
  {| connected := connected vc; channel := c; player := player vc |}.

(** [voice_client.stop()]: the player is dropped. *)
Definition vc_stop (vc : VoiceClient) : VoiceClient := with_player NoPlayer vc.

(** [discord.Guild], as far as the bot reads it. *)
Record Guild := {
  name : string;
  voice_client : option VoiceClient;
}.

Definition with_voice_client (o : option VoiceClient) (g : Guild) : Guild :=
  {| name := name g; voice_client := o |}.

(** ** Effects *)

(** The lines written by [print]. *)
Inductive LogLine :=
| PlayerError (guild_id : Z) (error : Exception)
| NowPlayingIn (guild_name : string) (song_title : string)
| ErrorStartingPlayback (exc : Exception)
| ErrorStartingNextSong (exc : Exception).

(** The calls made on the voice transport, with the guild they go to. *)
Inductive SinkCall :=
| CallPlay (guild_id : Z) (src : AudioSource)
| CallStop (guild_id : Z)
| CallDisconnect (guild_id : Z)
| CallConnect (guild_id : Z) (chan : Z)
| CallMoveTo (guild_id : Z) (chan : Z).

(** The state of the process: the guild cache of the bot, the module-level
    dictionary [music_queues], what was printed and what was asked of the
    transport (both oldest first). *)
Record World := {
  guilds : gmap Z Guild;
  music_queues : gmap Z (list Song);
  stdout : list LogLine;
  calls : list SinkCall;
}.

Definition with_guilds (gs : gmap Z Guild) (w : World) : World :=
  {| guilds := gs; music_queues := music_queues w;
     stdout := stdout w; calls := calls w |}.

Definition with_queues (qs : gmap Z (list Song)) (w : World) : World :=
  {| guilds := guilds w; music_queues := qs;
     stdout := stdout w; calls := calls w |}.

Definition print (l : LogLine) (w : World) : World :=
  {| guilds := guilds w; music_queues := music_queues w;
     stdout := stdout w ++ [l]; calls := calls w |}.

Definition call (c : SinkCall) (w : World) : World :=
  {| guilds := guilds w; music_queues := music_queues w;
     stdout := stdout w; calls := calls w ++ [c] |}.

(** [bot.get_guild(guild_id)]. *)
Definition get_guild (guild_id : Z) (w : World) : option Guild :=
  guilds w !! guild_id.

(** [guild.voice_client], for a guild given by its id; [None] also when
    the guild is not in the cache. *)
Definition sink_of (guild_id : Z) (w : World) : option VoiceClient :=
  get_guild guild_id w ≫= voice_client.

(** Writes the state of the guild's voice client back into the cache. *)
Definition set_voice_client (guild_id : Z) (o : option VoiceClient)
    (w : World) : World :=
  with_guilds (alter (with_voice_client o) guild_id (guilds w)) w.

(** ** The queues *)

(** [music_queues.setdefault(guild_id, [])]: the list of the guild, created
    empty on first use. *)
Definition get_queue (guild_id : Z) (w : World) : list Song * World :=
  match music_queues w !! guild_id with
  | Some q => (q, w)
  | None => ([], with_queues (<[guild_id := []]> (music_queues w)) w)
  end.

(** The list object behind [music_queues[guild_id]] is mutated in place; in
    the model the entry is replaced. *)
Definition set_queue (guild_id : Z) (q : list Song) (w : World) : World :=
  with_queues (<[guild_id := q]> (music_queues w)) w.

(** What [get_queue] would return, without creating the entry. *)
Definition queue_of (guild_id : Z) (w : World) : list Song :=
  default [] (music_queues w !! guild_id).

(** [queue.pop(0)] under the guard [if q:]. *)
Definition pop_head (guild_id : Z) (w : World) : World :=
  let '(q, w) := get_queue guild_id w in
  match q with
  | [] => w
  | _ :: rest => set_queue guild_id rest w
  end.

(** ** The sequencer *)

Section Sequencer.

(** Line 142, [discord.FFmpegPCMAudio(song.audio_url, ...)]: [Some exc]
    when building the source for this stream raises [exc] (the constructor
    starts the decoder), [None] when the source is built. *)
Variable build_raises : string -> option Exception.

(** The transport's verdict on a start call: [Some exc] when
    [voice_client.play] raises [exc] for this source, [None] when it starts
    the player. *)
Variable play_raises : AudioSource -> option Exception.

(** [voice_client.play(source, after=...)].  The library refuses a client
    that is not connected or is already playing before anything else; a
    refused call leaves the client as it was. *)
Definition vc_play (vc : VoiceClient) (src : AudioSource)
    : Exception + VoiceClient :=
  if negb (is_connected vc) then inl (Raised "Not connected to voice.")
  else if is_playing vc then inl (Raised "Already playing audio.")
  else match play_raises src with
       | Some exc => inl exc
       | None => inr (with_player (Sounding src) vc)
       end.

(** [start_next_song], with a bound on the depth of its recursion; [None]
    when the bound is reached.  Otherwise the result is the exception the
    coroutine raises, if any, and the world it leaves.  The source is built
    at line 142, before the [try]: what that raises leaves the coroutine,
    also from inside the [except] branch of a caller. *)
Fixpoint start_next_song_fuel (fuel : nat) (guild_id : Z) (w : World)
    : option (option Exception * World) :=
  match fuel with
  | O => None
  | S fuel' =>
    match get_guild guild_id w with
    | None => Some (None, w)
    | Some guild =>
      let '(queue, w) := get_queue guild_id w in
      match queue with
      | [] => Some (None, w)
      | song :: _ =>
        match voice_client guild with
        | None => Some (None, set_queue guild_id [] w)
        | Some vc =>
          if negb (is_connected vc) then Some (None, set_queue guild_id [] w)
          else if is_playing vc || is_paused vc then Some (None, w)
          else
            match build_raises (audio_url song) with
            | Some exc => Some (Some exc, w)
            | None =>
              let source := FFmpegPCMAudio (audio_url song) in
              let w := call (CallPlay guild_id source) w in
              match vc_play vc source with
              | inr vc' =>
                Some (None,
                      print (NowPlayingIn (name guild) (title song))
                        (set_voice_client guild_id (Some vc') w))
              | inl exc =>
                let w := print (ErrorStartingPlayback exc) w in
                let w :=
                  match queue_of guild_id w with
                  | head :: rest =>
                    if decide (head = song) then set_queue guild_id rest w
                    else w
                  | [] => w
                  end in
                start_next_song_fuel fuel' guild_id w
              end
            end
        end
      end
    end
  end.

(** Every recursive call follows a pop, so one more than the length of the
    queue bounds the depth. *)
Definition start_next_song (guild_id : Z) (w : World)
    : option Exception * World :=
  default (None, w)
    (start_next_song_fuel (S (length (queue_of guild_id w))) guild_id w).

(** Lines 127-133 of the closure [_after_play]: print the error, if any,
    and remove the song that just finished.  This part runs on the thread
    of the sink that delivers the signal. *)
Definition after_play_pop (guild_id : Z) (error : option Exception)
    (w : World) : World :=
  let w := match error with
           | Some e => print (PlayerError guild_id e) w
           | None => w
           end in
  pop_head guild_id w.

(** Lines 135-140 of the closure [_after_play]: [start_next_song] runs on
    the event loop; what it raises comes back through [fut.result()] and is
    printed. *)
Definition after_play_next (guild_id : Z) (w : World) : World :=
  match start_next_song guild_id w with
  | (Some exc, w) => print (ErrorStartingNextSong exc) w
  | (None, w) => w
  end.

(** The closure [_after_play] registered with [voice_client.play]; it runs
    when the sink signals that the track is over. *)
Definition _after_play (guild_id : Z) (error : option Exception)
    (w : World) : World :=
  let w := after_play_pop guild_id error w in
  after_play_next guild_id w.

(** ** Slash commands *)

(** The texts sent back to the user. *)
Inductive Message :=
| OnlyInServerPlay
| MustBeInVoiceChannel
| CouldntJoin (e : Exception)
| CouldntGetAudio (e : Exception)
| NowPlaying (song : Song)
| AddedToQueue (position : nat) (song : Song)
| OnlyInServer
| NotInVoiceChannel
| NothingPlaying
| Skipped
| Stopped
| Left
| NotConnected.

(** A reply and its [ephemeral] flag; the source sends every refusal with
    [ephemeral=True] and every success without. *)
Record Reply := {
  content : Message;
  ephemeral : bool;
}.

(** [discord.Interaction]: the guild it came from, if any, the user, and
    the voice channel the user is in, if any. *)
Record Interaction := {
  guild_id_of : option Z;
  user : User;
  user_channel : option Z;
}.

(** [interaction.guild]: the cached guild, with its id. *)
Definition interaction_guild (i : Interaction) (w : World)
    : option (Z * Guild) :=
  match guild_id_of i with
  | Some gid => match guilds w !! gid with
                | Some g => Some (gid, g)
                | None => None
                end
  | None => None
  end.

(** What the collaborators answer during one [play_cmd]: whether
    [connect] or [move_to] raises, and what [fetch_song] returns. *)
Record PlayEnv := {
  connect_raises : option Exception;
  move_raises : option Exception;
  fetched : Exception + Song;
}.

(** Whether the client held in the handler's local variable reports
    playing or paused; a client that is gone reports neither. *)
Definition busy (o : option VoiceClient) : bool :=
  match o with
  | Some vc => is_playing vc || is_paused vc
  | None => false
  end.

(** Lines 222-223 of [play_cmd]: the append. *)
Definition play_cmd_append (guild_id : Z) (song : Song) (w : World) : World :=
  let '(queue, w) := get_queue guild_id w in
  set_queue guild_id (queue ++ [song]) w.

(** Lines 225-236 of [play_cmd]: start at once, or report the position.
    What [start_next_song] raises leaves the handler, and no message is
    sent: the result is then the exception. *)
Definition play_cmd_decide (guild_id : Z) (song : Song) (w : World)
    : (Exception + Reply) * World :=
  if negb (busy (sink_of guild_id w))
  then
    match start_next_song guild_id w with
    | (Some exc, w) => (inl exc, w)
    | (None, w) =>
      (inr {| content := NowPlaying song; ephemeral := false |}, w)
    end
  else
    let position := length (queue_of guild_id w) in
    (inr {| content := AddedToQueue position song; ephemeral := false |}, w).

(** Lines 222-236 of [play_cmd]. *)
Definition play_cmd_enqueue (guild_id : Z) (song : Song) (w : World)
    : (Exception + Reply) * World :=
  play_cmd_decide guild_id song (play_cmd_append guild_id song w).

(** Lines 201-213 of [play_cmd]: join or move to the user's channel.  The
    result is the exception caught, if any. *)
Definition play_cmd_join (guild_id : Z) (guild : Guild) (voice_channel : Z)
    (env : PlayEnv) (w : World) : option Exception * World :=
  let fresh := {| connected := true; channel := voice_channel;
                  player := NoPlayer |} in
  match voice_client guild with
  | Some vc =>
    if negb (is_connected vc) then
      let w := call (CallConnect guild_id voice_channel) w in
      match connect_raises env with
      | Some e => (Some e, w)
      | None => (None, set_voice_client guild_id (Some fresh) w)
      end
    else if negb (bool_decide (channel vc = voice_channel)) then
      let w := call (CallMoveTo guild_id voice_channel) w in
      match move_raises env with
      | Some e => (Some e, w)
      | None =>
        (None, set_voice_client guild_id
                 (Some (with_channel voice_channel vc)) w)
      end
    else (None, w)
  | None =>
    let w := call (CallConnect guild_id voice_channel) w in
    match connect_raises env with
    | Some e => (Some e, w)
    | None => (None, set_voice_client guild_id (Some fresh) w)
    end
  end.

(** [play_cmd]: the message sent, or the exception that leaves the
    handler, and the world afterwards. *)
Definition play_cmd (i : Interaction) (env : PlayEnv) (w : World)
    : (Exception + Reply) * World :=
  match interaction_guild i w with
  | None => (inr {| content := OnlyInServerPlay; ephemeral := true |}, w)
  | Some (guild_id, guild) =>
    match user_channel i with
    | None =>
      (inr {| content := MustBeInVoiceChannel; ephemeral := true |}, w)
    | Some voice_channel =>
      match play_cmd_join guild_id guild voice_channel env w with
      | (Some e, w1) =>
        (inr {| content := CouldntJoin e; ephemeral := true |}, w1)
      | (None, w1) =>
        match fetched env with
        | inl e =>
          (inr {| content := CouldntGetAudio e; ephemeral := true |}, w1)
        | inr song => play_cmd_enqueue guild_id song w1
        end
      end
    end
  end.


Definition skip_cmd (i : Interaction) (w : World) : Reply * World :=
  match interaction_guild i w with
  | None => ({| content := OnlyInServer; ephemeral := true |}, w)
  | Some (guild_id, guild) =>
    match voice_client guild with
    | None => ({| content := NotInVoiceChannel; ephemeral := true |}, w)
    | Some vc =>
      if negb (is_connected vc)
      then ({| content := NotInVoiceChannel; ephemeral := true |}, w)
      else if negb (is_playing vc) && negb (is_paused vc)
      then ({| content := NothingPlaying; ephemeral := true |}, w)
      else
        let w := call (CallStop guild_id) w in
        let w := set_voice_client guild_id (Some (vc_stop vc)) w in
        ({| content := Skipped; ephemeral := false |}, w)
    end
  end.

(** Lines 264-266 of [stop_cmd]: the clear. *)
Definition stop_cmd_clear (guild_id : Z) (w : World) : World :=
  let '(_, w) := get_queue guild_id w in
  set_queue guild_id [] w.

(** Lines 268-270 of [stop_cmd]: stop the sink if it is active. *)
Definition stop_cmd_sink (guild_id : Z) (w : World) : World :=
  match sink_of guild_id w with
  | Some vc =>
    if is_playing vc || is_paused vc
    then set_voice_client guild_id (Some (vc_stop vc))
           (call (CallStop guild_id) w)
    else w
  | None => w
  end.

Definition stop_cmd (i : Interaction) (w : World) : Reply * World :=
  match interaction_guild i w with
  | None => ({| content := OnlyInServer; ephemeral := true |}, w)
  | Some (guild_id, _) =>
    let w := stop_cmd_clear guild_id w in
    let w := stop_cmd_sink guild_id w in
    ({| content := Stopped; ephemeral := false |}, w)
  end.

(** [voice_client.disconnect()] stops the player, closes the connection and
    removes the client from the guild. *)
Definition leave_cmd (i : Interaction) (w : World) : Reply * World :=
  match interaction_guild i w with
  | None => ({| content := OnlyInServer; ephemeral := true |}, w)
  | Some (guild_id, guild) =>
    let '(_, w) := get_queue guild_id w in
    let w := set_queue guild_id [] w in
    match voice_client guild with
    | Some vc =>
      if is_connected vc then
        let w := call (CallDisconnect guild_id) w in
        let w := set_voice_client guild_id None w in
        ({| content := Left; ephemeral := false |}, w)
      else ({| content := NotConnected; ephemeral := true |}, w)
    | None => ({| content := NotConnected; ephemeral := true |}, w)
    end
  end.

(** ** What the sequencer is expected to do, in words *)

(** The source built for a song. *)
Definition source_of (song : Song) : AudioSource :=
  FFmpegPCMAudio (audio_url song).

(** Building the source of this song raises. *)
Definition unbuildable (song : Song) : bool :=
  bool_decide (is_Some (build_raises (audio_url song))).

(** The source of this song is built and the sink refuses to start it. *)
Definition rejected (song : Song) : bool :=
  negb (unbuildable song)
  && bool_decide (is_Some (play_raises (source_of song))).

(** The queue once every leading song that the sink refuses is gone. *)
Fixpoint drop_rejected (q : list Song) : list Song :=
  match q with
  | [] => []
  | song :: rest => if rejected song then drop_rejected rest else q
  end.

(** One line per leading refused song, carrying what the sink raised for
    that song. *)
Fixpoint start_errors (q : list Song) : list LogLine :=
  match q with
  | [] => []
  | song :: rest =>
    match build_raises (audio_url song), play_raises (source_of song) with
    | None, Some exc => ErrorStartingPlayback exc :: start_errors rest
    | _, _ => []
    end
  end.

(** One start call per leading refused song and one for the song that is
    accepted after them; none for a song whose source is not built. *)
Fixpoint start_attempts (guild_id : Z) (q : list Song) : list SinkCall :=
  match q with
  | [] => []
  | song :: rest =>
    if unbuildable song then []
    else CallPlay guild_id (source_of song)
           :: (if rejected song then start_attempts guild_id rest else [])
  end.

(** What the evaluation raises on a connected, idle sink: the error of
    building the source of the first song that the sink does not get to
    refuse. *)
Definition start_raises (q : list Song) : option Exception :=
  match drop_rejected q with
  | [] => None
  | song :: _ => build_raises (audio_url song)
  end.

(** The world after the sink refused [song], the head of the queue: the
    call was made, the error was printed, and that one song is gone. *)
Definition rejected_step (guild_id : Z) (song : Song) (rest : list Song)
    (exc : Exception) (w : World) : World :=
  set_queue guild_id rest
    (print (ErrorStartingPlayback exc)
       (call (CallPlay guild_id (source_of song)) w)).

(** The world after a start-next evaluation on a connected, idle sink
    [vc]: the refused leading songs are gone, each with its error line and
    its call; the song after them, if any, is sounding when its source is
    built, and is left at the head of the queue with nothing sounding when
    it is not. *)
Definition start_outcome (guild_id : Z) (guild : Guild) (vc : VoiceClient)
    (w : World) : World :=
  let q := queue_of guild_id w in
  let q' := drop_rejected q in
  {| guilds :=
       match q' with
       | [] => guilds w
       | song :: _ =>
         if unbuildable song then guilds w
         else
           alter (with_voice_client
                    (Some (with_player (Sounding (source_of song)) vc)))
                 guild_id (guilds w)
       end;
     music_queues := <[guild_id := q']> (music_queues w);
     stdout :=
       stdout w ++ start_errors q ++
         match q' with
         | [] => []
         | song :: _ =>
           if unbuildable song then []
           else [NowPlayingIn (name guild) (title song)]
         end;
     calls := calls w ++ start_attempts guild_id q |}.

(** The sink of a connected, idle client [vc] after a start-next
    evaluation that leaves the queue [q']. *)
Definition started (vc : VoiceClient) (q' : list Song) : VoiceClient :=
  match q' with
  | [] => vc
  | song :: _ =>
    if unbuildable song then vc
    else with_player (Sounding (source_of song)) vc
  end.


(** ** Threads *)

(** The sink's player reaches the end of its stream: [is_playing()] turns
    false.  The same thread then runs [_after_play]. *)
Definition player_ends (guild_id : Z) (w : World) : World :=
  match sink_of guild_id w with
  | Some vc =>
    if is_playing vc then set_voice_client guild_id (Some (vc_stop vc)) w
    else w
  | None => w
  end.

(** The pieces of the handlers between which another thread may run.  The
    command handlers and [start_next_song] run on the event loop;
    [PlayerEnds] and [AfterPlayPop] run on the sink's thread.
    [AfterPlayNext] is the evaluation the handler hands to the loop,
    together with the line the handler prints when that evaluation
    raises. *)
Inductive Step :=
| PlayerEnds (guild_id : Z)
| AfterPlayPop (guild_id : Z) (error : option Exception)
| AfterPlayNext (guild_id : Z)
| PlayAppend (guild_id : Z) (song : Song)
| PlayDecide (guild_id : Z) (song : Song)
| StopClear (guild_id : Z)
| StopSink (guild_id : Z).

Definition exec (st : Step) (w : World) : World :=
  match st with
  | PlayerEnds g => player_ends g w
  | AfterPlayPop g error => after_play_pop g error w
  | AfterPlayNext g => after_play_next g w
  | PlayAppend g song => play_cmd_append g song w
  | PlayDecide g song => snd (play_cmd_decide g song w)
  | StopClear g => stop_cmd_clear g w
  | StopSink g => stop_cmd_sink g w
  end.

Fixpoint run (sched : list Step) (w : World) : World :=
  match sched with
  | [] => w
  | st :: rest => run rest (exec st w)
  end.

(** The thread of a completion signal, of the tail of [play_cmd], and of
    [stop_cmd]. *)
Definition completion_thread (g : Z) (error : option Exception) : list Step :=
  [PlayerEnds g; AfterPlayPop g error; AfterPlayNext g].

Definition play_thread (g : Z) (song : Song) : list Step :=
  [PlayAppend g song; PlayDecide g song].

Definition stop_thread (g : Z) : list Step :=
  [StopClear g; StopSink g].

(** Every merge of two threads that keeps the order inside each. *)
Fixpoint interleavings (xs ys : list Step) : list (list Step) :=
  match xs with
  | [] => [ys]
  | x :: xs' =>
    (fix inner (ys : list Step) : list (list Step) :=
       match ys with
       | [] => [x :: xs']
       | y :: ys' =>
         map (cons x) (interleavings xs' ys) ++ map (cons y) (inner ys')
       end) ys
  end.

(** What a guild shows of itself: its queue and its voice client. *)
Definition observe (g : Z) (w : World) : list Song * option VoiceClient :=
  (queue_of g w, sink_of g w).

(** Two threads do not race on guild [g] from [w]: whatever the merge, the
    guild ends as it does when one thread runs wholly before the other. *)
Definition serialized (t1 t2 : list Step) (g : Z) (w : World) : Prop :=
  ∀ sched, sched ∈ interleavings t1 t2 →
    observe g (run sched w) = observe g (run (t1 ++ t2) w)
    ∨ observe g (run sched w) = observe g (run (t2 ++ t1) w).

(** The sink of [g] in [w'] is the sink of [g] in [w], up to its player. *)
Definition same_connection (g : Z) (w w' : World) : Prop :=
  vc_stop <$> sink_of g w' = vc_stop <$> sink_of g w.

(** How far [stop_cmd] has come on guild [g], started in [w], when the
    world is [w']: nothing done yet (0), the queue cleared (1), the sink
    stopped as well (2 and more). *)
Definition stop_phase (n : nat) (g : Z) (w w' : World) : Prop :=
  match n with
  | O => same_connection g w w'
  | S O => same_connection g w w' ∧ queue_of g w' = []
  | _ => queue_of g w' = [] ∧ sink_of g w' = vc_stop <$> sink_of g w
  end.

(** The steps of the completion thread of guild [g]. *)
Definition on_completion_thread (g : Z) (st : Step) : Prop :=
  match st with
  | PlayerEnds g' | AfterPlayPop g' _ | AfterPlayNext g' => g' = g
  | _ => False
  end.

End Sequencer.

(** ** Concrete guilds, songs and sinks *)

Definition alice : User := {| user_id := 7; display_name := "alice" |}.

Definition song_A : Song :=
  {| url := "a"; title := "A"; webpage_url := "https://example.org/a";
     duration := 225; audio_url := "stream-a"; requested_by := alice |}.

Definition song_B : Song :=
  {| url := "b"; title := "B"; webpage_url := "https://example.org/b";
     duration := 3725; audio_url := "stream-b"; requested_by := alice |}.

Definition song_C : Song :=
  {| url := "c"; title := "C"; webpage_url := "https://example.org/c";
     duration := 0; audio_url := "stream-c"; requested_by := alice |}.

(** A decoder that opens every stream, and one that cannot open the stream
    of [song_B]. *)
Definition build_all : string -> option Exception := fun _ => None.


(** A sink that starts every source, and one that refuses the stream of
    [song_A] only. *)
Definition accept_all : AudioSource -> option Exception := fun _ => None.


Definition idle_client : VoiceClient :=
  {| connected := true; channel := 5; player := NoPlayer |}.

Definition client_playing (song : Song) : VoiceClient :=
  {| connected := true; channel := 5; player := Sounding (source_of song) |}.

(** A client that lost its connection and still holds its player. *)
Definition client_reconnecting (song : Song) : VoiceClient :=
  {| connected := false; channel := 5; player := Sounding (source_of song) |}.

Definition guild_one (vc : option VoiceClient) : Guild :=
  {| name := "guild one"; voice_client := vc |}.

(** Guild 1 with the given voice client and queue; nothing printed yet. *)
Definition world_of (vc : option VoiceClient) (q : list Song) : World :=
  {| guilds := {[ 1 := guild_one vc ]};
     music_queues := {[ 1 := q ]};
     stdout := [];
     calls := [] |}.

Definition in_guild_1 : Interaction :=
  {| guild_id_of := Some 1; user := alice; user_channel := Some 5 |}.

Definition fetches (song : Song) : PlayEnv :=
  {| connect_raises := None; move_raises := None; fetched := inr song |}.

(** The same request when the voice channel cannot be joined. *)
Definition cannot_connect (song : Song) : PlayEnv :=
  {| connect_raises := Some (Raised "timed out"); move_raises := None;
     fetched := inr song |}.

(** ** Decimal digits *)

(** The character is one of "0" to "9". *)
Definition is_digit (c : ascii) : bool :=
  (48 <=? nat_of_ascii c)%nat && (nat_of_ascii c <=? 57)%nat.

Fixpoint all_digits (s : string) : bool :=
  match s with
  | EmptyString => true
  | String c rest => is_digit c && all_digits rest
  end.

(** ** fetch_song *)

(** One result of [yt_dlp], as far as [fetch_song] reads it; a key that is
    absent is [None]. *)
Record Entry := {
  info_url : option string;
  info_title : option string;
  info_webpage_url : option string;
  info_duration : option Z;
}.

(** What [extract_info] returns: its own keys and, for a playlist or a
    search, the list under the key ["entries"]. *)
Record Info := {
  entries : option (list Entry);
  own : Entry;
}.

(** [fetch_song].  [extract_info] stands for the call into [yt_dlp], which
    may raise.  A missing ["url"] raises [KeyError], an empty list of
    entries raises [IndexError]; the other keys have defaults. *)
Definition fetch_song (extract_info : string -> Exception + Info)
    (url : string) (requester : User) : Exception + Song :=
  match extract_info url with
  | inl exc => inl exc
  | inr info =>
    let first :=
      match entries info with
      | Some [] => inl (Raised "list index out of range")
      | Some (entry :: _) => inr entry
      | None => inr (own info)
      end in
    match first with
    | inl exc => inl exc
    | inr info =>
      match info_url info with
      | None => inl (Raised "'url'")
      | Some audio =>
        inr {| url := url;
               title := default "Unknown title" (info_title info);
               webpage_url := default url (info_webpage_url info);
               duration := default 0 (info_duration info);
               audio_url := audio;
               requested_by := requester |}
      end
    end
  end.

(** ** queue_cmd *)

(** The start of a line of the listing: the mark of the song that plays, or
    a number and a dot. *)
Inductive LinePrefix :=
| PlayingMark
| Numbered (i : nat).

(** One line of the listing, field by field. *)
Record QueueLine := {
  line_prefix : LinePrefix;
  line_title : string;
  line_link : string;
  line_duration : string;
  line_requester : string;
}.

Inductive QueueMessage :=
| QueueOnlyInServer
| QueueIsEmpty
| QueueEmbed (description : list QueueLine).

Record QueueReply := {
  listing : QueueMessage;
  listing_ephemeral : bool;
}.

(** The body of the loop over [enumerate(queue, start=1)]. *)
Definition queue_line (vc : option VoiceClient) (i : nat) (song : Song)
    : QueueLine :=
  {| line_prefix :=
       if (i =? 1)%nat
          && match vc with Some c => is_playing c | None => false end
       then PlayingMark else Numbered i;
     line_title := title song;
     line_link := webpage_url song;
     line_duration := format_duration (Some (duration song));
     line_requester := display_name (requested_by song) |}.

Definition queue_cmd (i : Interaction) (w : World) : QueueReply * World :=
  match interaction_guild i w with
  | None => ({| listing := QueueOnlyInServer; listing_ephemeral := true |}, w)
  | Some (guild_id, guild) =>
    let '(queue, w) := get_queue guild_id w in
    match queue with
    | [] => ({| listing := QueueIsEmpty; listing_ephemeral := false |}, w)
    | _ :: _ =>
      let lines :=
        imap (λ k song, queue_line (voice_client guild) (S k) song) queue in
      ({| listing := QueueEmbed lines; listing_ephemeral := false |}, w)
    end
  end.

(** ** The token and the entry point *)

Definition PLACEHOLDER : string := "PASTE_YOUR_BOT_TOKEN_HERE".

(** Lines 16-20: the token written in the file, or, only when that one is
    empty, the environment variable ([None] when it is not set). *)
Definition configured_token (TOKEN : string) (getenv : option string)
    : option string :=
  if decide (TOKEN = "") then getenv else Some TOKEN.

(** Lines 322-325: the token [bot.run] is called with, or the
    [RuntimeError]. *)
Definition main (TOKEN : string) (getenv : option string)
    : Exception + string :=
  let forgot :=
    Raised "You forgot to put your bot token in the code or DISCORD_TOKEN env var." in
  match configured_token TOKEN getenv with
  | None => inl forgot
  | Some token =>
    if decide (token = "") then inl forgot
    else if decide (token = PLACEHOLDER) then inl forgot
    else inr token
  end.

(** ** Sequences of operations *)

Section Operations.

Variable build_raises : string -> option Exception.
Variable play_raises : AudioSource -> option Exception.

(** [play_cmd] for the text the user typed: the song is what [fetch_song]
    makes of it. *)
Definition play_cmd_url (extract_info : string -> Exception + Info)
    (connect_exc move_exc : option Exception) (i : Interaction)
    (url : string) (w : World) : (Exception + Reply) * World :=
  play_cmd build_raises play_raises i
    {| connect_raises := connect_exc; move_raises := move_exc;
       fetched := fetch_song extract_info url (user i) |} w.

(** What can happen to the world: a command runs, the player of a guild
    reaches the end of its stream, a completion signal is handled. *)
Inductive Op :=
| OpPlay (i : Interaction) (env : PlayEnv)
| OpSkip (i : Interaction)
| OpStop (i : Interaction)
| OpLeave (i : Interaction)
| OpQueue (i : Interaction)
| OpPlayerEnds (g : Z)
| OpCompletion (g : Z) (error : option Exception).

(** The guild an operation is about, if any. *)
Definition op_guild (op : Op) : option Z :=
  match op with
  | OpPlay i _ | OpSkip i | OpStop i | OpLeave i | OpQueue i => guild_id_of i
  | OpPlayerEnds g | OpCompletion g _ => Some g
  end.

Definition apply_op (op : Op) (w : World) : World :=
  match op with
  | OpPlay i env => (play_cmd build_raises play_raises i env w).2
  | OpSkip i => (skip_cmd i w).2
  | OpStop i => (stop_cmd i w).2
  | OpLeave i => (leave_cmd i w).2
  | OpQueue i => (queue_cmd i w).2
  | OpPlayerEnds g => player_ends g w
  | OpCompletion g error => _after_play build_raises play_raises g error w
  end.

Fixpoint apply_ops (ops : list Op) (w : World) : World :=
  match ops with
  | [] => w
  | op :: rest => apply_ops rest (apply_op op w)
  end.




(** From [w] to [w'] nothing happened to the guilds other than [g], and no
    queue was removed from [music_queues]. *)
Definition only_touches (g : Z) (w w' : World) : Prop :=
  (∀ g', g ≠ g' →
     queue_of g' w' = queue_of g' w ∧ get_guild g' w' = get_guild g' w)
  ∧ (∀ k, is_Some (music_queues w !! k) → is_Some (music_queues w' !! k)).

End Operations.

(** The world of a bot that has just started in guild 1: nothing queued,
    no voice client. *)
Definition fresh_world : World := world_of None [].

Definition entry_B : Entry :=
  {| info_url := Some "stream-b"; info_title := Some "B";
     info_webpage_url := Some "https://example.org/b";
     info_duration := Some 3725 |}.

(** An entry with a stream and nothing else. *)
Definition entry_bare : Entry :=
  {| info_url := Some "stream-x"; info_title := None;
     info_webpage_url := None; info_duration := None |}.

Definition entry_no_url : Entry :=
  {| info_url := None; info_title := Some "no stream";
     info_webpage_url := None; info_duration := Some 10 |}.

(** Two guilds at once: [song_A] plays in guild 1 with [song_C] behind
    it, [song_B] plays in guild 2. *)
Definition two_guilds : World :=
  {| guilds :=
       {[ 1 := guild_one (Some (client_playing song_A));
          2 := {| name := "guild two";
                  voice_client := Some (client_playing song_B) |} ]};
     music_queues := {[ 1 := [song_A; song_C]; 2 := [song_B] ]};
     stdout := [];
     calls := [] |}.


(** What [yt_dlp] answers in the examples: a search whose first hit is
    [entry_B], a single result with a stream and nothing else, a result
    without a stream, and an error for anything else. *)
Definition extract_examples (text : string) : Exception + Info :=
  if decide (text = "b songs")
  then inr {| entries := Some [entry_B; entry_bare]; own := entry_no_url |}
  else if decide (text = "bare") then inr {| entries := None; own := entry_bare |}
  else if decide (text = "no stream")
  then inr {| entries := None; own := entry_no_url |}
  else inl (Raised "Unsupported URL").

(** * Facts *)

(** ** The store *)

Lemma World_eq (w1 w2 : World) :
  guilds w1 = guilds w2 → music_queues w1 = music_queues w2 →
  stdout w1 = stdout w2 → calls w1 = calls w2 → w1 = w2.
Proof. destruct w1, w2; simpl; congruence. Qed.

Lemma queue_of_lookup (g : Z) (w : World) (q : list Song) :
  music_queues w !! g = Some q → queue_of g w = q.
Proof. unfold queue_of. intros ->. reflexivity. Qed.

Lemma queue_of_set_queue (g : Z) (q : list Song) (w : World) :
  queue_of g (set_queue g q w) = q.
Proof. unfold queue_of, set_queue. simpl. by rewrite lookup_insert_eq. Qed.

Lemma queue_of_set_queue_ne (g g' : Z) (q : list Song) (w : World) :
  g ≠ g' → queue_of g' (set_queue g q w) = queue_of g' w.
Proof. intros Hne. unfold queue_of, set_queue. simpl. by rewrite lookup_insert_ne. Qed.

Lemma get_queue_fst (g : Z) (w : World) : (get_queue g w).1 = queue_of g w.
Proof. unfold get_queue, queue_of. by destruct (music_queues w !! g). Qed.

Lemma get_queue_lookup (g : Z) (w : World) :
  music_queues (get_queue g w).2 !! g = Some (queue_of g w).
Proof.
  unfold get_queue, queue_of.
  destruct (music_queues w !! g) eqn:E; simpl; [done|].
  by rewrite lookup_insert_eq.
Qed.

Lemma get_queue_queue_of (g g' : Z) (w : World) :
  queue_of g' (get_queue g w).2 = queue_of g' w.
Proof.
  unfold get_queue, queue_of.
  destruct (music_queues w !! g) eqn:E; simpl; [done|].
  destruct (decide (g = g')) as [<-|Hne].
  - by rewrite lookup_insert_eq, E.
  - by rewrite lookup_insert_ne.
Qed.

Lemma get_queue_guilds (g : Z) (w : World) : guilds (get_queue g w).2 = guilds w.
Proof. unfold get_queue. by destruct (music_queues w !! g). Qed.

Lemma get_queue_stdout (g : Z) (w : World) : stdout (get_queue g w).2 = stdout w.
Proof. unfold get_queue. by destruct (music_queues w !! g). Qed.

Lemma get_queue_calls (g : Z) (w : World) : calls (get_queue g w).2 = calls w.
Proof. unfold get_queue. by destruct (music_queues w !! g). Qed.

Lemma get_queue_present (g : Z) (w : World) (q : list Song) :
  music_queues w !! g = Some q → get_queue g w = (q, w).
Proof. unfold get_queue. by intros ->. Qed.

Lemma get_queue_created (g : Z) (w : World) :
  music_queues (get_queue g w).2 = <[g := queue_of g w]> (music_queues w).
Proof.
  unfold get_queue, queue_of.
  destruct (music_queues w !! g) eqn:E; simpl; [|done].
  by rewrite insert_id.
Qed.

Lemma pop_head_queue_of (g : Z) (w : World) :
  queue_of g (pop_head g w) = tail (queue_of g w).
Proof.
  unfold pop_head.
  destruct (get_queue g w) as [q w1] eqn:E.
  assert (q = queue_of g w) as Hq by (by rewrite <- get_queue_fst, E).
  assert (w1 = (get_queue g w).2) as Hw by (by rewrite E).
  destruct q as [|s rest].
  - subst w1. rewrite get_queue_queue_of. by rewrite <- Hq.
  - rewrite queue_of_set_queue. by rewrite <- Hq.
Qed.

Lemma pop_head_queue_of_ne (g g' : Z) (w : World) :
  g ≠ g' → queue_of g' (pop_head g w) = queue_of g' w.
Proof.
  intros Hne. unfold pop_head.
  destruct (get_queue g w) as [q w1] eqn:E.
  assert (w1 = (get_queue g w).2) as -> by (by rewrite E).
  destruct q; [|rewrite queue_of_set_queue_ne by done];
    apply get_queue_queue_of.
Qed.

Lemma pop_head_guilds (g : Z) (w : World) : guilds (pop_head g w) = guilds w.
Proof.
  unfold pop_head. destruct (get_queue g w) as [q w1] eqn:E.
  assert (w1 = (get_queue g w).2) as -> by (by rewrite E).
  destruct q; simpl; apply get_queue_guilds.
Qed.

Lemma pop_head_stdout (g : Z) (w : World) : stdout (pop_head g w) = stdout w.
Proof.
  unfold pop_head. destruct (get_queue g w) as [q w1] eqn:E.
  assert (w1 = (get_queue g w).2) as -> by (by rewrite E).
  destruct q; simpl; apply get_queue_stdout.
Qed.

Lemma pop_head_calls (g : Z) (w : World) : calls (pop_head g w) = calls w.
Proof.
  unfold pop_head. destruct (get_queue g w) as [q w1] eqn:E.
  assert (w1 = (get_queue g w).2) as -> by (by rewrite E).
  destruct q; simpl; apply get_queue_calls.
Qed.

(** ** start_next_song *)

Section SequencerFacts.

Variable build_raises : string -> option Exception.
Variable play_raises : AudioSource -> option Exception.

Lemma queue_of_cons_lookup (g : Z) (w : World) (song : Song) (rest : list Song) :
  queue_of g w = song :: rest → music_queues w !! g = Some (song :: rest).
Proof.
  unfold queue_of. destruct (music_queues w !! g); simpl; congruence.
Qed.

(** More fuel never changes a result. *)
Lemma start_next_song_fuel_mono (n : nat) (g : Z) (w : World)
    (r : option Exception * World) :
  start_next_song_fuel build_raises play_raises n g w = Some r →
  ∀ m, (n ≤ m)%nat →
    start_next_song_fuel build_raises play_raises m g w = Some r.
Proof.
  revert w. induction n as [|n IH]; intros w H m Hm; [discriminate|].
  destruct m as [|m]; [lia|].
  simpl in *.
  destruct (get_guild g w) as [guild|]; [|done].
  destruct (get_queue g w) as [q w1].
  destruct q as [|song rest]; [done|].
  destruct (voice_client guild) as [vc|]; [|done].
  destruct (negb (is_connected vc)); [done|].
  destruct (is_playing vc || is_paused vc); [done|].
  destruct (build_raises (audio_url song)); [done|].
  destruct (vc_play play_raises vc _); [|done].
  apply IH; [done | lia].
Qed.

(** The recursion is bounded by the length of the queue: with more fuel
    than songs the evaluation always comes to an end, by returning or by
    raising. *)
Lemma start_next_song_fuel_enough (n : nat) (g : Z) (w : World) :
  (length (queue_of g w) < n)%nat →
  is_Some (start_next_song_fuel build_raises play_raises n g w).
Proof.
  revert w. induction n as [|n IH]; intros w Hn; [lia|].
  simpl.
  destruct (get_guild g w) as [guild|]; [|by eexists].
  destruct (get_queue g w) as [q w1] eqn:E.
  assert (q = queue_of g w) as Hq by (by rewrite <- get_queue_fst, E).
  assert (music_queues w1 !! g = Some q) as Hw1.
  { replace w1 with (get_queue g w).2 by (by rewrite E).
    rewrite Hq. apply get_queue_lookup. }
  destruct q as [|song rest]; [by eexists|].
  destruct (voice_client guild) as [vc|]; [|by eexists].
  destruct (negb (is_connected vc)); [by eexists|].
  destruct (is_playing vc || is_paused vc); [by eexists|].
  destruct (build_raises (audio_url song)); [by eexists|].
  destruct (vc_play play_raises vc _); [|by eexists].
  apply IH.
  unfold queue_of at 2. simpl. rewrite Hw1. simpl.
  rewrite decide_True by done.
  rewrite queue_of_set_queue. rewrite <- Hq in Hn. simpl in Hn. lia.
Qed.

(** The model gives what the fuelled evaluation gives. *)
Lemma start_next_song_fuel_eq (n : nat) (g : Z) (w : World) :
  (length (queue_of g w) < n)%nat →
  start_next_song_fuel build_raises play_raises n g w
  = Some (start_next_song build_raises play_raises g w).
Proof.
  intros Hn. unfold start_next_song.
  destruct (start_next_song_fuel_enough (S (length (queue_of g w))) g w)
    as [r Hr]; [lia|].
  rewrite Hr. simpl. eapply start_next_song_fuel_mono; [done | lia].
Qed.

Lemma start_next_song_no_guild (g : Z) (w : World) :
  get_guild g w = None →
  start_next_song build_raises play_raises g w = (None, w).
Proof.
  intros H. unfold start_next_song. simpl. by rewrite H.
Qed.

Lemma start_next_song_empty (g : Z) (w : World) (guild : Guild) :
  get_guild g w = Some guild → queue_of g w = [] →
  start_next_song build_raises play_raises g w = (None, (get_queue g w).2).
Proof.
  intros H Hq. unfold start_next_song. simpl. rewrite H.
  destruct (get_queue g w) as [q w1] eqn:E.
  assert (q = []) as -> by (by rewrite <- Hq, <- get_queue_fst, E).
  done.
Qed.

Lemma start_next_song_no_sink (g : Z) (w : World) (guild : Guild)
    (song : Song) (rest : list Song) :
  get_guild g w = Some guild → queue_of g w = song :: rest →
  match voice_client guild with
  | Some vc => is_connected vc = false
  | None => True
  end →
  start_next_song build_raises play_raises g w = (None, set_queue g [] w).
Proof.
  intros H Hq Hvc. unfold start_next_song. simpl. rewrite H.
  rewrite (get_queue_present g w _ (queue_of_cons_lookup _ _ _ _ Hq)).
  destruct (voice_client guild) as [vc|]; [|done].
  by rewrite Hvc.
Qed.

Lemma start_next_song_busy (g : Z) (w : World) (guild : Guild)
    (vc : VoiceClient) (song : Song) (rest : list Song) :
  get_guild g w = Some guild → queue_of g w = song :: rest →
  voice_client guild = Some vc → is_connected vc = true →
  busy (Some vc) = true →
  start_next_song build_raises play_raises g w = (None, w).
Proof.
  intros H Hq Hvc Hc Hb. unfold start_next_song. simpl. rewrite H.
  rewrite (get_queue_present g w _ (queue_of_cons_lookup _ _ _ _ Hq)).
  rewrite Hvc, Hc. simpl in *. by rewrite Hb.
Qed.

(** Line 142 raises: the coroutine ends there, with the queue, the sink,
    the output and the calls as they were. *)
Lemma start_next_song_unbuilt (g : Z) (w : World) (guild : Guild)
    (vc : VoiceClient) (song : Song) (rest : list Song) (exc : Exception) :
  get_guild g w = Some guild → queue_of g w = song :: rest →
  voice_client guild = Some vc → is_connected vc = true →
  busy (Some vc) = false →
  build_raises (audio_url song) = Some exc →
  start_next_song build_raises play_raises g w = (Some exc, w).
Proof.
  intros H Hq Hvc Hc Hb Hr.
  pose proof (queue_of_cons_lookup _ _ _ _ Hq) as Hl.
  unfold start_next_song. rewrite Hq.
  cbn [start_next_song_fuel length]. rewrite H.
  rewrite (get_queue_present g w _ Hl).
  rewrite Hvc, Hc. simpl in Hb. cbn [negb]. rewrite Hb.
  by rewrite Hr.
Qed.

Lemma start_next_song_fuel_reject (n : nat) (g : Z) (w : World)
    (guild : Guild) (vc : VoiceClient) (song : Song) (rest : list Song)
    (exc : Exception) :
  get_guild g w = Some guild → queue_of g w = song :: rest →
  voice_client guild = Some vc → is_connected vc = true →
  busy (Some vc) = false →
  build_raises (audio_url song) = None →
  play_raises (source_of song) = Some exc →
  start_next_song_fuel build_raises play_raises (S n) g w
  = start_next_song_fuel build_raises play_raises n g
      (rejected_step g song rest exc w).
Proof.
  intros H Hq Hvc Hc Hb Hbd Hr.
  pose proof (queue_of_cons_lookup _ _ _ _ Hq) as Hl.
  cbn [start_next_song_fuel]. rewrite H.
  rewrite (get_queue_present g w _ Hl).
  rewrite Hvc, Hc. simpl in Hb. cbn [negb]. rewrite Hb, Hbd.
  unfold vc_play. rewrite Hc. cbn [negb].
  apply orb_false_iff in Hb as [Hp _]. rewrite Hp.
  fold (source_of song). rewrite Hr.
  unfold queue_of at 1. cbn [music_queues print call]. rewrite Hl. cbn [default].
  unfold id. by rewrite decide_True by done.
Qed.

(** The [except] branch: one song is popped and the evaluation starts
    over on what is left. *)
Lemma start_next_song_reject (g : Z) (w : World) (guild : Guild)
    (vc : VoiceClient) (song : Song) (rest : list Song) (exc : Exception) :
  get_guild g w = Some guild → queue_of g w = song :: rest →
  voice_client guild = Some vc → is_connected vc = true →
  busy (Some vc) = false →
  build_raises (audio_url song) = None →
  play_raises (source_of song) = Some exc →
  start_next_song build_raises play_raises g w
  = start_next_song build_raises play_raises g
      (rejected_step g song rest exc w).
Proof.
  intros H Hq Hvc Hc Hb Hbd Hr.
  assert (Some (start_next_song build_raises play_raises g w)
          = Some (start_next_song build_raises play_raises g
                    (rejected_step g song rest exc w)))
    as Heq; [|congruence].
  rewrite <- (start_next_song_fuel_eq (S (S (length rest))) g w)
    by (rewrite Hq; simpl; lia).
  rewrite (start_next_song_fuel_reject _ _ _ _ _ _ _ _ H Hq Hvc Hc Hb Hbd Hr).
  apply start_next_song_fuel_eq.
  unfold rejected_step. rewrite queue_of_set_queue. lia.
Qed.

(** The [try] branch went through: the song is sounding. *)
Lemma start_next_song_accept (g : Z) (w : World) (guild : Guild)
    (vc : VoiceClient) (song : Song) (rest : list Song) :
  get_guild g w = Some guild → queue_of g w = song :: rest →
  voice_client guild = Some vc → is_connected vc = true →
  busy (Some vc) = false →
  build_raises (audio_url song) = None →
  play_raises (source_of song) = None →
  start_next_song build_raises play_raises g w
  = (None,
     print (NowPlayingIn (name guild) (title song))
       (set_voice_client g (Some (with_player (Sounding (source_of song)) vc))
          (call (CallPlay g (source_of song)) w))).
Proof.
  intros H Hq Hvc Hc Hb Hbd Hr.
  pose proof (queue_of_cons_lookup _ _ _ _ Hq) as Hl.
  unfold start_next_song. rewrite Hq.
  cbn [start_next_song_fuel length]. rewrite H.
  rewrite (get_queue_present g w _ Hl).
  rewrite Hvc, Hc. simpl in Hb. cbn [negb]. rewrite Hb, Hbd.
  unfold vc_play. rewrite Hc. cbn [negb].
  apply orb_false_iff in Hb as [Hp _]. rewrite Hp.
  fold (source_of song). by rewrite Hr.
Qed.

Lemma unbuildable_Some (song : Song) (exc : Exception) :
  build_raises (audio_url song) = Some exc →
  unbuildable build_raises song = true.
Proof. intros H. unfold unbuildable. rewrite H. by apply bool_decide_eq_true. Qed.

Lemma unbuildable_None (song : Song) :
  build_raises (audio_url song) = None →
  unbuildable build_raises song = false.
Proof.
  intros H. unfold unbuildable. rewrite H. apply bool_decide_eq_false.
  by intros [? ?].
Qed.


Lemma rejected_Some (song : Song) (exc : Exception) :
  build_raises (audio_url song) = None →
  play_raises (source_of song) = Some exc →
  rejected build_raises play_raises song = true.
Proof.
  intros Hb H. unfold rejected. by rewrite (unbuildable_None _ Hb), H.
Qed.

Lemma rejected_None (song : Song) :
  play_raises (source_of song) = None →
  rejected build_raises play_raises song = false.
Proof.
  intros H. unfold rejected. rewrite H. apply andb_false_iff. right.
  apply bool_decide_eq_false. by intros [? ?].
Qed.

Lemma rejected_unbuilt (song : Song) (exc : Exception) :
  build_raises (audio_url song) = Some exc →
  rejected build_raises play_raises song = false.
Proof.
  intros H. unfold rejected. by rewrite (unbuildable_Some _ _ H).
Qed.

(** On a connected, idle sink the evaluation drops the refused leading
    songs, one per step; it starts the song after them, or raises what
    building the source of that song raises. *)
Lemma start_next_song_idle (g : Z) (w : World) (guild : Guild) (vc : VoiceClient) :
  get_guild g w = Some guild → voice_client guild = Some vc →
  is_connected vc = true → busy (Some vc) = false →
  start_next_song build_raises play_raises g w
  = (start_raises build_raises play_raises (queue_of g w),
     start_outcome build_raises play_raises g guild vc w).
Proof.
  intros H Hvc Hc Hb.
  remember (queue_of g w) as q eqn:Hq. symmetry in Hq.
  revert w H Hq. induction q as [|song rest IH]; intros w H Hq.
  - rewrite (start_next_song_empty _ _ _ H Hq).
    unfold start_outcome, start_raises. rewrite Hq. simpl. f_equal.
    apply World_eq; simpl.
    + apply get_queue_guilds.
    + by rewrite get_queue_created, Hq.
    + by rewrite get_queue_stdout, app_nil_r.
    + by rewrite get_queue_calls, app_nil_r.
  - destruct (build_raises (audio_url song)) as [bexc|] eqn:Hbd.
    { rewrite (start_next_song_unbuilt _ _ _ _ _ _ _ H Hq Hvc Hc Hb Hbd).
      unfold start_outcome, start_raises. rewrite Hq.
      cbn [drop_rejected start_errors start_attempts].
      rewrite (rejected_unbuilt _ _ Hbd), (unbuildable_Some _ _ Hbd).
      cbv iota. rewrite ?Hbd.
      f_equal. apply World_eq; simpl.
      - done.
      - symmetry. apply insert_id. by apply queue_of_cons_lookup.
      - by rewrite app_nil_r.
      - by rewrite app_nil_r. }
    destruct (play_raises (source_of song)) as [exc|] eqn:Hr.
    + rewrite (start_next_song_reject _ _ _ _ _ _ _ H Hq Hvc Hc Hb Hbd Hr).
      rewrite IH; [| done | apply queue_of_set_queue].
      assert (queue_of g (rejected_step g song rest exc w) = rest) as Hq2
        by apply queue_of_set_queue.
      unfold start_outcome, start_raises. rewrite Hq2, Hq.
      cbn [drop_rejected start_errors start_attempts].
      rewrite (rejected_Some _ _ Hbd Hr), (unbuildable_None _ Hbd).
      cbv iota. rewrite ?Hbd, ?Hr.
      f_equal. apply World_eq; simpl.
      * done.
      * by rewrite insert_insert_eq.
      * by rewrite <- !app_assoc.
      * by rewrite <- !app_assoc.
    + rewrite (start_next_song_accept _ _ _ _ _ _ H Hq Hvc Hc Hb Hbd Hr).
      unfold start_outcome, start_raises. rewrite Hq.
      cbn [drop_rejected start_errors start_attempts].
      rewrite (rejected_None _ Hr), (unbuildable_None _ Hbd).
      cbv iota. rewrite ?Hbd, ?Hr.
      f_equal. apply World_eq; simpl.
      * done.
      * symmetry. apply insert_id. by apply queue_of_cons_lookup.
      * done.
      * done.
Qed.

Lemma sink_of_guilds (g : Z) (w w' : World) :
  guilds w' = guilds w → sink_of g w' = sink_of g w.
Proof. unfold sink_of, get_guild. by intros ->. Qed.

Lemma sink_of_known (g : Z) (w : World) (guild : Guild) :
  get_guild g w = Some guild → sink_of g w = voice_client guild.
Proof. unfold sink_of. by intros ->. Qed.

Lemma sink_of_set_voice_client (g : Z) (w : World) (guild : Guild)
    (o : option VoiceClient) :
  get_guild g w = Some guild → sink_of g (set_voice_client g o w) = o.
Proof.
  unfold sink_of, get_guild, set_voice_client. simpl. intros H.
  by rewrite lookup_alter_eq, H.
Qed.

Lemma sink_of_start_outcome (g : Z) (w : World) (guild : Guild) (vc : VoiceClient) :
  get_guild g w = Some guild → voice_client guild = Some vc →
  sink_of g (start_outcome build_raises play_raises g guild vc w)
  = Some (started build_raises vc
            (drop_rejected build_raises play_raises (queue_of g w))).
Proof.
  intros H Hvc. unfold sink_of, get_guild, start_outcome, started. simpl.
  unfold get_guild in H.
  destruct (drop_rejected build_raises play_raises (queue_of g w)) as [|s ?].
  - by rewrite H.
  - destruct (unbuildable build_raises s).
    + by rewrite H.
    + by rewrite lookup_alter_eq, H.
Qed.


(** With no reachable sink the evaluation empties the queue, asks nothing
    of the transport and raises nothing. *)
Lemma start_next_song_unreachable (g : Z) (w : World) (guild : Guild) :
  get_guild g w = Some guild →
  match voice_client guild with
  | Some vc => is_connected vc = false
  | None => True
  end →
  let r := start_next_song build_raises play_raises g w in
  r.1 = None
  ∧ queue_of g r.2 = [] ∧ guilds r.2 = guilds w ∧ stdout r.2 = stdout w
  ∧ calls r.2 = calls w.
Proof.
  intros H Hvc. simpl.
  destruct (queue_of g w) as [|song rest] eqn:Hq.
  - rewrite (start_next_song_empty _ _ _ H Hq). simpl.
    rewrite get_queue_queue_of, get_queue_guilds, get_queue_stdout,
      get_queue_calls. done.
  - rewrite (start_next_song_no_sink _ _ _ _ _ H Hq Hvc). simpl.
    by rewrite queue_of_set_queue.
Qed.







Lemma after_play_pop_facts (g : Z) (error : option Exception) (w : World) :
  let w1 := after_play_pop g error w in
  queue_of g w1 = tail (queue_of g w) ∧ guilds w1 = guilds w
  ∧ calls w1 = calls w
  ∧ stdout w1 = stdout w ++ match error with
                            | Some e => [PlayerError g e]
                            | None => []
                            end.
Proof.
  unfold after_play_pop.
  rewrite pop_head_queue_of, pop_head_guilds, pop_head_calls, pop_head_stdout.
  destruct error; simpl; by rewrite ?app_nil_r.
Qed.

(** Lines 135-140 in terms of what the evaluation gives. *)
Lemma after_play_next_unfold (g : Z) (w : World) :
  after_play_next build_raises play_raises g w
  = match (start_next_song build_raises play_raises g w).1 with
    | Some exc =>
      print (ErrorStartingNextSong exc)
        (start_next_song build_raises play_raises g w).2
    | None => (start_next_song build_raises play_raises g w).2
    end.
Proof.
  unfold after_play_next.
  by destruct (start_next_song build_raises play_raises g w) as [[?|] ?].
Qed.

(** The line printed at line 140 apart, the handler leaves what the
    evaluation leaves. *)
Lemma after_play_next_state (g : Z) (w : World) :
  let w' := after_play_next build_raises play_raises g w in
  let r := start_next_song build_raises play_raises g w in
  guilds w' = guilds r.2 ∧ music_queues w' = music_queues r.2
  ∧ calls w' = calls r.2.
Proof.
  simpl. rewrite after_play_next_unfold.
  by destruct (start_next_song build_raises play_raises g w).1.
Qed.



(** ** The completion signal *)


(** ** A refused start *)


(** ** A busy sink *)

(** C2, as the code has it.  When the start-next evaluation runs for a
    known guild whose sink reports playing or paused, no call is made on
    the transport, nothing is printed, nothing is raised and the sink is
    left as it is, so no second playback is started; no other queue is
    touched, and running the evaluation again changes nothing.  When the
    sink is also connected the queue is unchanged (and so is the whole
    world when the queue is not empty); when the sink reports that it is
    not connected the evaluation empties the queue. *)
Theorem start_next_song_busy_starts_nothing (g : Z) (w : World)
    (guild : Guild) (vc : VoiceClient) :
  get_guild g w = Some guild → voice_client guild = Some vc →
  busy (Some vc) = true →
  let w' := (start_next_song build_raises play_raises g w).2 in
  (start_next_song build_raises play_raises g w).1 = None
  ∧ guilds w' = guilds w ∧ stdout w' = stdout w ∧ calls w' = calls w
  ∧ (∀ g', g ≠ g' → queue_of g' w' = queue_of g' w)
  ∧ (is_connected vc = true →
     queue_of g w' = queue_of g w ∧ (queue_of g w ≠ [] → w' = w))
  ∧ (is_connected vc = false → queue_of g w' = [])
  ∧ start_next_song build_raises play_raises g w' = (None, w').
Proof.
  intros H Hvc Hb. simpl.
  assert (∀ v, get_guild g v = Some guild → music_queues v !! g = Some [] →
            start_next_song build_raises play_raises g v = (None, v)) as Hfix.
  { intros v Hv Hl.
    rewrite (start_next_song_empty _ _ _ Hv) by (by apply queue_of_lookup).
    by rewrite (get_queue_present g v []). }
  destruct (queue_of g w) as [|song rest] eqn:Hq.
  - rewrite (start_next_song_empty _ _ _ H Hq). cbn [fst snd].
    rewrite get_queue_guilds, get_queue_stdout, get_queue_calls.
    split_and!; try done.
    + intros g' _. apply get_queue_queue_of.
    + intros _. by rewrite get_queue_queue_of.
    + intros _. by rewrite get_queue_queue_of.
    + apply Hfix.
      * unfold get_guild. by rewrite get_queue_guilds.
      * by rewrite get_queue_lookup, Hq.
  - destruct (is_connected vc) eqn:Hc.
    + rewrite (start_next_song_busy _ _ _ _ _ _ H Hq Hvc Hc Hb). cbn [fst snd].
      split_and!; try done.
      apply (start_next_song_busy _ _ _ _ _ _ H Hq Hvc Hc Hb).
    + rewrite (start_next_song_no_sink _ _ _ _ _ H Hq)
        by (by rewrite Hvc).
      cbn [fst snd].
      split_and!; try done.
      * intros g' Hne. by apply queue_of_set_queue_ne.
      * intros _. apply queue_of_set_queue.
      * apply Hfix; [done|]. unfold set_queue. simpl.
        by rewrite lookup_insert_eq.
Qed.

(** ** Enqueueing with no reachable sink *)

Lemma play_cmd_append_facts (g : Z) (song : Song) (w : World) :
  let w1 := play_cmd_append g song w in
  queue_of g w1 = queue_of g w ++ [song] ∧ guilds w1 = guilds w
  ∧ stdout w1 = stdout w ∧ calls w1 = calls w
  ∧ ∀ g', g ≠ g' → queue_of g' w1 = queue_of g' w.
Proof.
  unfold play_cmd_append.
  destruct (get_queue g w) as [q w0] eqn:E.
  assert (q = queue_of g w) as -> by (by rewrite <- get_queue_fst, E).
  assert (w0 = (get_queue g w).2) as -> by (by rewrite E).
  rewrite queue_of_set_queue. simpl.
  rewrite get_queue_guilds, get_queue_stdout, get_queue_calls.
  repeat split; try done.
  intros g' Hne. rewrite queue_of_set_queue_ne by done.
  apply get_queue_queue_of.
Qed.


Lemma play_cmd_enqueue_unreachable (g : Z) (song : Song) (w : World)
    (guild : Guild) :
  get_guild g w = Some guild →
  match voice_client guild with
  | Some vc => is_connected vc = false ∧ busy (Some vc) = false
  | None => True
  end →
  let r := play_cmd_enqueue build_raises play_raises g song w in
  r.1 = inr {| content := NowPlaying song; ephemeral := false |}
  ∧ queue_of g r.2 = [] ∧ guilds r.2 = guilds w ∧ stdout r.2 = stdout w
  ∧ calls r.2 = calls w.
Proof.
  intros H Hvc. unfold play_cmd_enqueue, play_cmd_decide.
  destruct (play_cmd_append_facts g song w) as (Hq & Hg & Hs & Hc & _).
  assert (get_guild g (play_cmd_append g song w) = Some guild) as H1
    by (unfold get_guild; by rewrite Hg).
  rewrite (sink_of_known _ _ _ H1).
  assert (busy (voice_client guild) = false) as ->.
  { destruct (voice_client guild); [by destruct Hvc | done]. }
  simpl.
  destruct (start_next_song_unreachable g _ guild H1)
    as (Hr' & Hq' & Hg' & Hs' & Hc').
  { destruct (voice_client guild); [by destruct Hvc | done]. }
  destruct (start_next_song build_raises play_raises g
              (play_cmd_append g song w)) as [o w2].
  simpl in *. subst o. simpl. rewrite Hq', Hg', Hs', Hc'. done.
Qed.

Lemma interaction_guild_known (i : Interaction) (w : World) (g : Z) (guild : Guild) :
  interaction_guild i w = Some (g, guild) →
  guild_id_of i = Some g ∧ get_guild g w = Some guild.
Proof.
  unfold interaction_guild, get_guild.
  destruct (guild_id_of i) as [gid|]; [|done].
  destruct (guilds w !! gid) eqn:E; [|done].
  intros [= <- <-]. done.
Qed.






(** ** stop *)

Lemma not_busy_vc_stop (vc : VoiceClient) :
  busy (Some vc) = false → vc_stop vc = vc.
Proof.
  destruct vc as [c ch p]. unfold busy, is_playing, is_paused, vc_stop, with_player.
  simpl. by destruct p.
Qed.

Lemma busy_vc_stop (o : option VoiceClient) : busy (vc_stop <$> o) = false.
Proof. by destruct o. Qed.

Lemma stop_cmd_clear_facts (g : Z) (w : World) :
  let w1 := stop_cmd_clear g w in
  music_queues w1 = <[g := []]> (music_queues w) ∧ guilds w1 = guilds w
  ∧ stdout w1 = stdout w ∧ calls w1 = calls w.
Proof.
  unfold stop_cmd_clear.
  destruct (get_queue g w) as [q w0] eqn:E.
  assert (w0 = (get_queue g w).2) as -> by (by rewrite E).
  simpl. rewrite get_queue_guilds, get_queue_stdout, get_queue_calls.
  rewrite get_queue_created, insert_insert_eq. done.
Qed.

Lemma stop_cmd_clear_queue_of (g g' : Z) (w : World) :
  queue_of g' (stop_cmd_clear g w) = if decide (g = g') then [] else queue_of g' w.
Proof.
  destruct (stop_cmd_clear_facts g w) as (Hm & _).
  unfold queue_of. rewrite Hm. case_decide as Hd.
  - subst. by rewrite lookup_insert_eq.
  - by rewrite lookup_insert_ne.
Qed.

Lemma stop_cmd_clear_fixed (g : Z) (w : World) :
  music_queues w !! g = Some [] → stop_cmd_clear g w = w.
Proof.
  intros H. destruct (stop_cmd_clear_facts g w) as (Hm & Hg & Hs & Hc).
  apply World_eq; try done. rewrite Hm. by apply insert_id.
Qed.

Lemma stop_cmd_sink_fixed (g : Z) (w : World) :
  busy (sink_of g w) = false → stop_cmd_sink g w = w.
Proof.
  unfold stop_cmd_sink. destruct (sink_of g w); [|done].
  simpl. by intros ->.
Qed.

Lemma stop_cmd_sink_queues (g : Z) (w : World) :
  music_queues (stop_cmd_sink g w) = music_queues w
  ∧ stdout (stop_cmd_sink g w) = stdout w.
Proof.
  unfold stop_cmd_sink. destruct (sink_of g w); [|done].
  by destruct (is_playing v || is_paused v).
Qed.

Lemma stop_cmd_sink_sink (g : Z) (w : World) :
  sink_of g (stop_cmd_sink g w) = vc_stop <$> sink_of g w.
Proof.
  unfold stop_cmd_sink. fold (sink_of g w).
  destruct (sink_of g w) as [vc|] eqn:E; [|by rewrite E].
  destruct (is_playing vc || is_paused vc) eqn:Hb.
  - unfold sink_of in E.
    destruct (get_guild g w) as [guild|] eqn:H; [|done].
    by rewrite (sink_of_set_voice_client g _ guild).
  - rewrite E. simpl. by rewrite not_busy_vc_stop.
Qed.

Lemma stop_cmd_sink_other (g g' : Z) (w : World) :
  g ≠ g' → get_guild g' (stop_cmd_sink g w) = get_guild g' w.
Proof.
  intros Hne. unfold stop_cmd_sink.
  destruct (sink_of g w); [|done].
  destruct (is_playing v || is_paused v); [|done].
  unfold get_guild, set_voice_client. simpl. by rewrite lookup_alter_ne.
Qed.

(** A start-next evaluation on an empty queue changes nothing that can be
    observed. *)
Lemma start_next_song_on_empty (g : Z) (w : World) :
  queue_of g w = [] →
  let r := start_next_song build_raises play_raises g w in
  r.1 = None
  ∧ guilds r.2 = guilds w ∧ calls r.2 = calls w ∧ stdout r.2 = stdout w
  ∧ ∀ g', queue_of g' r.2 = queue_of g' w.
Proof.
  intros Hq. simpl. destruct (get_guild g w) as [guild|] eqn:H.
  - rewrite (start_next_song_empty _ _ _ H Hq). cbn [fst snd].
    rewrite get_queue_guilds, get_queue_stdout, get_queue_calls.
    repeat split. intros g'. apply get_queue_queue_of.
  - by rewrite (start_next_song_no_guild _ _ H).
Qed.

(** So does the evaluation scheduled by the completion handler. *)
Lemma after_play_next_on_empty (g : Z) (w : World) :
  queue_of g w = [] →
  let w' := after_play_next build_raises play_raises g w in
  guilds w' = guilds w ∧ calls w' = calls w ∧ stdout w' = stdout w
  ∧ ∀ g', queue_of g' w' = queue_of g' w.
Proof.
  intros Hq. simpl. rewrite after_play_next_unfold.
  by destruct (start_next_song_on_empty g w Hq) as (-> & ? & ? & ? & ?).
Qed.

(** C6. For a command that comes from a known guild, [stop_cmd] succeeds,
    leaves the queue of the guild empty and the sink neither playing nor
    paused, whatever the state before, and touches no other queue.
    Invoking it again changes nothing; on a guild that is already idle
    with an empty queue it succeeds and leaves guilds, queues, calls and
    output as they were.  A completion signal delivered afterwards finds
    the queue empty and leaves the guild idle. *)
Theorem stop_clears_and_idles (i : Interaction) (w : World) (g : Z)
    (guild : Guild) :
  interaction_guild i w = Some (g, guild) →
  let r := (stop_cmd i w).1 in
  let w' := (stop_cmd i w).2 in
  r = {| content := Stopped; ephemeral := false |}
  ∧ length (queue_of g w') = 0%nat
  ∧ busy (sink_of g w') = false
  ∧ (∀ g', g ≠ g' → queue_of g' w' = queue_of g' w)
  ∧ stop_cmd i w' = (r, w')
  ∧ (queue_of g w = [] → busy (sink_of g w) = false →
     guilds w' = guilds w ∧ calls w' = calls w ∧ stdout w' = stdout w
     ∧ ∀ g', queue_of g' w' = queue_of g' w)
  ∧ (∀ error, let w'' := _after_play build_raises play_raises g error w' in
       queue_of g w'' = [] ∧ busy (sink_of g w'') = false).
Proof.
  intros Hi. simpl.
  destruct (interaction_guild_known _ _ _ _ Hi) as [Hid H].
  unfold stop_cmd. rewrite Hi. cbn [fst snd].
  set (w1 := stop_cmd_clear g w). set (w' := stop_cmd_sink g w1).
  destruct (stop_cmd_clear_facts g w) as (Hm1 & Hg1 & Hs1 & Hc1). fold w1 in Hm1, Hg1, Hs1, Hc1.
  destruct (stop_cmd_sink_queues g w1) as [Hm' Hs']. fold w' in Hm', Hs'.
  assert (music_queues w' !! g = Some []) as Hl'
    by (by rewrite Hm', Hm1, lookup_insert_eq).
  assert (queue_of g w' = []) as Hq' by (by apply queue_of_lookup).
  assert (busy (sink_of g w') = false) as Hb'
    by (unfold w'; rewrite stop_cmd_sink_sink; apply busy_vc_stop).
  assert (∃ guild', get_guild g w' = Some guild') as [guild' H'].
  { unfold w', stop_cmd_sink. fold (sink_of g w1).
    assert (get_guild g w1 = Some guild) as H1 by (unfold get_guild; by rewrite Hg1).
    destruct (sink_of g w1); [|by eexists].
    destruct (is_playing v || is_paused v); [|by eexists].
    unfold get_guild, set_voice_client. simpl. rewrite lookup_alter_eq.
    unfold get_guild in H1. rewrite H1. by eexists. }
  split; [done|]. split; [by rewrite Hq'|]. split; [done|].
  split.
  { intros g' Hne. unfold queue_of. rewrite Hm', Hm1. by rewrite lookup_insert_ne. }
  split.
  { unfold interaction_guild. rewrite Hid. unfold get_guild in H'. rewrite H'.
    f_equal. rewrite (stop_cmd_clear_fixed g w' Hl').
    by apply stop_cmd_sink_fixed. }
  split.
  { intros Hq Hb.
    assert (w' = w1) as ->.
    { apply stop_cmd_sink_fixed. by rewrite (sink_of_guilds _ _ _ Hg1). }
    repeat split; try done. intros g'.
    unfold w1. rewrite stop_cmd_clear_queue_of. by case_decide; subst. }
  intros error.
  destruct (after_play_pop_facts g error w') as (Hq2 & Hg2 & _).
  rewrite Hq' in Hq2. simpl in Hq2.
  unfold _after_play.
  destruct (after_play_next_on_empty g _ Hq2) as (Hg3 & _ & _ & Hq3).
  rewrite Hq3, Hq2. split; [done|].
  rewrite (sink_of_guilds _ _ _ Hg3), (sink_of_guilds _ _ _ Hg2). done.
Qed.

(** ** leave *)

Lemma leave_cmd_unfold (i : Interaction) (w : World) (g : Z) (guild : Guild) :
  interaction_guild i w = Some (g, guild) →
  leave_cmd i w
  = let w1 := stop_cmd_clear g w in
    match voice_client guild with
    | Some vc =>
      if is_connected vc
      then ({| content := Left; ephemeral := false |},
            set_voice_client g None (call (CallDisconnect g) w1))
      else ({| content := NotConnected; ephemeral := true |}, w1)
    | None => ({| content := NotConnected; ephemeral := true |}, w1)
    end.
Proof.
  intros Hi. unfold leave_cmd, stop_cmd_clear. rewrite Hi.
  by destruct (get_queue g w).
Qed.

(** C7, as the code has it.  For a command that comes from a known guild,
    [leave_cmd] empties the queue of the guild in every case, exactly as
    [stop_cmd] does.  With a connected sink it also disconnects it (the one
    call made) and reports success; the guild then has no voice client.
    With no connected sink it reports that state as a refusal, makes no
    call and leaves the guilds as they were, and the queue has been
    emptied all the same. *)
Theorem leave_clears_queue_in_every_case (i : Interaction) (w : World)
    (g : Z) (guild : Guild) :
  interaction_guild i w = Some (g, guild) →
  let r := (leave_cmd i w).1 in
  let w' := (leave_cmd i w).2 in
  queue_of g w' = []
  ∧ music_queues w' = music_queues (stop_cmd i w).2
  ∧ stdout w' = stdout w
  ∧ match voice_client guild with
    | Some vc =>
      if is_connected vc
      then r = {| content := Left; ephemeral := false |}
           ∧ sink_of g w' = None
           ∧ calls w' = calls w ++ [CallDisconnect g]
      else r = {| content := NotConnected; ephemeral := true |}
           ∧ guilds w' = guilds w ∧ calls w' = calls w
    | None => r = {| content := NotConnected; ephemeral := true |}
              ∧ guilds w' = guilds w ∧ calls w' = calls w
    end.
Proof.
  intros Hi. simpl.
  destruct (interaction_guild_known _ _ _ _ Hi) as [Hid H].
  rewrite (leave_cmd_unfold _ _ _ _ Hi).
  unfold stop_cmd. rewrite Hi. cbn [fst snd].
  destruct (stop_cmd_sink_queues g (stop_cmd_clear g w)) as [-> _].
  destruct (stop_cmd_clear_facts g w) as (Hm1 & Hg1 & Hs1 & Hc1).
  set (w1 := stop_cmd_clear g w) in *.
  assert (queue_of g w1 = []) as Hq1.
  { unfold w1. rewrite stop_cmd_clear_queue_of. by rewrite decide_True. }
  assert (get_guild g w1 = Some guild) as H1
    by (unfold get_guild; by rewrite Hg1).
  destruct (voice_client guild) as [vc|].
  - destruct (is_connected vc); cbn [fst snd].
    + repeat split; try done.
      * by apply (sink_of_set_voice_client g _ guild).
      * simpl. by rewrite Hc1.
    + done.
  - done.
Qed.

(** ** skip *)

(** C8. [skip_cmd] never touches [music_queues], whatever the state.  When
    nothing is playing or paused it answers with a refusal and leaves the
    whole world as it was, as does every refusal.  When it succeeds, all it
    does is one stop call on the sink; the queue advances only when the
    completion signal of the stopped track is handled, and that handler
    then pops the head. *)
Theorem skip_leaves_queue_to_completion (i : Interaction) (w : World) :
  let r := (skip_cmd i w).1 in
  let w' := (skip_cmd i w).2 in
  music_queues w' = music_queues w ∧ stdout w' = stdout w
  ∧ (busy (interaction_guild i w ≫= λ p, voice_client p.2) = false →
     ephemeral r = true ∧ w' = w)
  ∧ (ephemeral r = true → w' = w)
  ∧ (ephemeral r = false →
     ∃ g guild vc,
       interaction_guild i w = Some (g, guild)
       ∧ voice_client guild = Some vc
       ∧ r = {| content := Skipped; ephemeral := false |}
       ∧ calls w' = calls w ++ [CallStop g]
       ∧ sink_of g w' = Some (vc_stop vc)
       ∧ queue_of g w' = queue_of g w
       ∧ queue_of g (after_play_pop g None w') = tail (queue_of g w)).
Proof.
  simpl. unfold skip_cmd.
  destruct (interaction_guild i w) as [[g guild]|] eqn:Hi; [|done].
  destruct (interaction_guild_known _ _ _ _ Hi) as [Hid H].
  simpl.
  destruct (voice_client guild) as [vc|] eqn:Hvc; [|done].
  destruct (is_connected vc); simpl; [|done].
  destruct (is_playing vc || is_paused vc) eqn:Hb.
  - apply orb_true_iff in Hb as Hb'.
    assert (negb (is_playing vc) && negb (is_paused vc) = false) as ->.
    { destruct Hb' as [-> | ->]; [done | by rewrite andb_false_r]. }
    simpl. repeat split; try done.
    intros _. exists g, guild, vc. repeat split; try done.
    + by apply (sink_of_set_voice_client g _ guild).
    + destruct (after_play_pop_facts g None
        (set_voice_client g (Some (vc_stop vc)) (call (CallStop g) w)))
        as (Hq & _).
      by rewrite Hq.
  - apply orb_false_iff in Hb as [-> ->]. simpl. done.
Qed.

(** ** Enqueueing while a track plays *)

Lemma play_cmd_enqueue_busy (g : Z) (song : Song) (w : World) :
  busy (sink_of g w) = true →
  play_cmd_enqueue build_raises play_raises g song w
  = (inr {| content := AddedToQueue (length (queue_of g w ++ [song])) song;
            ephemeral := false |},
     play_cmd_append g song w).
Proof.
  intros Hb. unfold play_cmd_enqueue, play_cmd_decide.
  destruct (play_cmd_append_facts g song w) as (Hq & Hg & _).
  fold (sink_of g (play_cmd_append g song w)).
  rewrite (sink_of_guilds _ _ _ Hg), Hb. simpl. by rewrite Hq.
Qed.

(** C9. When a song is enqueued while the sink of the guild reports
    playing or paused, the song is appended at the tail of the queue and
    nothing else happens: the command raises nothing and its reply gives
    the length of the queue after the append, which is the 1-based
    position of the new song; no other queue changes, the sink is as
    before (nothing is started), no call is made on the transport and
    nothing is printed. *)
Theorem enqueue_while_busy_appends (g : Z) (song : Song) (w : World) :
  busy (sink_of g w) = true →
  let r := (play_cmd_enqueue build_raises play_raises g song w).1 in
  let w' := (play_cmd_enqueue build_raises play_raises g song w).2 in
  r = inr {| content := AddedToQueue (length (queue_of g w) + 1) song;
             ephemeral := false |}
  ∧ r = inr {| content := AddedToQueue (length (queue_of g w')) song;
               ephemeral := false |}
  ∧ queue_of g w' = queue_of g w ++ [song]
  ∧ (∀ g', g ≠ g' → queue_of g' w' = queue_of g' w)
  ∧ guilds w' = guilds w ∧ calls w' = calls w ∧ stdout w' = stdout w.
Proof.
  intros Hb. simpl. rewrite (play_cmd_enqueue_busy _ _ _ Hb). cbn [fst snd].
  destruct (play_cmd_append_facts g song w) as (Hq & Hg & Hs & Hc & Hne).
  rewrite Hq, length_app. simpl. done.
Qed.

(** The same through the whole of [play_cmd]: the command comes from a
    known guild whose sink is connected and playing or paused, the user is
    in a voice channel, the bot is there or can move there, and the song
    is resolved. *)
Lemma play_cmd_while_busy (i : Interaction) (env : PlayEnv)
    (w : World) (g : Z) (guild : Guild) (vc : VoiceClient) (ch : Z)
    (song : Song) :
  interaction_guild i w = Some (g, guild) →
  user_channel i = Some ch →
  voice_client guild = Some vc →
  is_connected vc = true → busy (Some vc) = true →
  channel vc = ch ∨ move_raises env = None →
  fetched env = inr song →
  let r := (play_cmd build_raises play_raises i env w).1 in
  let w' := (play_cmd build_raises play_raises i env w).2 in
  r = inr {| content := AddedToQueue (length (queue_of g w) + 1) song;
             ephemeral := false |}
  ∧ queue_of g w' = queue_of g w ++ [song]
  ∧ queue_of g w' !! length (queue_of g w) = Some song
  ∧ player <$> sink_of g w' = Some (player vc)
  ∧ calls w' = calls w ++ (if decide (channel vc = ch) then []
                           else [CallMoveTo g ch])
  ∧ stdout w' = stdout w.
Proof.
  intros Hi Hch Hvc Hc Hb Hmv Hf. simpl.
  destruct (interaction_guild_known _ _ _ _ Hi) as [Hid H].
  unfold play_cmd. rewrite Hi, Hch.
  assert (∃ w1, play_cmd_join g guild ch env w = (None, w1)
            ∧ queue_of g w1 = queue_of g w
            ∧ (∃ vc1, sink_of g w1 = Some vc1 ∧ player vc1 = player vc)
            ∧ calls w1 = calls w ++ (if decide (channel vc = ch) then []
                                     else [CallMoveTo g ch])
            ∧ stdout w1 = stdout w) as (w1 & -> & Hq1 & (vc1 & Hs1 & Hp1) & Hc1 & Ho1).
  { unfold play_cmd_join. rewrite Hvc, Hc. cbn [negb].
    destruct (decide (channel vc = ch)) as [Heq|Hne].
    - rewrite bool_decide_eq_true_2 by done. cbn [negb].
      exists w. rewrite app_nil_r. repeat split; try done.
      exists vc. by rewrite (sink_of_known _ _ _ H).
    - rewrite bool_decide_eq_false_2 by done. cbn [negb].
      destruct Hmv as [? | ->]; [done|].
      eexists. split; [done|]. repeat split; try done.
      exists (with_channel ch vc). split; [|done].
      by apply (sink_of_set_voice_client g _ guild). }
  rewrite Hf.
  assert (busy (sink_of g w1) = true) as Hb1.
  { rewrite Hs1. simpl in *. unfold is_playing, is_paused in *. by rewrite Hp1. }
  rewrite (play_cmd_enqueue_busy _ _ _ Hb1). cbn [fst snd].
  destruct (play_cmd_append_facts g song w1) as (Hq & Hg & Hs & Hcl & _).
  rewrite Hq, Hq1, length_app. simpl.
  repeat split; try done.
  - by rewrite lookup_app_r, Nat.sub_diag.
  - by rewrite (sink_of_guilds _ _ _ Hg), Hs1, <- Hp1.
  - by rewrite Hcl.
  - by rewrite Hs.
Qed.

End SequencerFacts.

(** ** format_duration *)

Lemma string_length_app (s1 s2 : string) :
  String.length (s1 +:+ s2) = (String.length s1 + String.length s2)%nat.
Proof. induction s1 as [|c s1 IH]; simpl; [done | by rewrite IH]. Qed.

Lemma string_length_zeros (n : nat) :
  String.length (string_of_list_ascii (replicate n "0"%char)) = n.
Proof. induction n as [|n IH]; simpl; [done | by rewrite IH]. Qed.

Lemma fmt_02d_length (k : Z) : (2 ≤ String.length (fmt_02d k))%nat.
Proof.
  unfold fmt_02d. rewrite string_length_app, string_length_zeros. lia.
Qed.

Lemma two_digits_length (k : Z) : String.length (two_digits k) = 2%nat.
Proof. reflexivity. Qed.

(** Below sixty, the [02d] field is exactly the two decimal digits. *)
Lemma fmt_02d_two_digits (k : Z) : 0 ≤ k < 60 → fmt_02d k = two_digits k.
Proof.
  intros Hk.
  assert (k = Z.of_nat (Z.to_nat k)) as -> by lia.
  assert (Z.to_nat k < 60)%nat as Hi by lia.
  generalize dependent (Z.to_nat k). clear. intros i Hi.
  do 60 (destruct i as [|i]; [vm_compute; reflexivity|]).
  lia.
Qed.

Lemma format_duration_nonzero (n : Z) :
  n ≠ 0 →
  format_duration (Some n)
  = if negb ((n `div` 60) `div` 60 =? 0)
    then pretty ((n `div` 60) `div` 60) +:+ ":"
           +:+ fmt_02d ((n `div` 60) `mod` 60) +:+ ":" +:+ fmt_02d (n `mod` 60)
    else pretty ((n `div` 60) `mod` 60) +:+ ":" +:+ fmt_02d (n `mod` 60).
Proof.
  intros Hn. unfold format_duration, divmod.
  by rewrite (proj2 (Z.eqb_neq n 0) Hn).
Qed.

Lemma format_duration_hours (n : Z) :
  3600 ≤ n → format_duration (Some n) = h_mm_ss n.
Proof.
  intros Hn. rewrite format_duration_nonzero by lia.
  assert ((n `div` 60) `div` 60 = n `div` 3600) as ->
    by (rewrite Z.div_div by lia; reflexivity).
  assert (1 ≤ n `div` 3600) by (apply Z.div_le_lower_bound; lia).
  rewrite (proj2 (Z.eqb_neq _ 0)) by lia. cbn [negb].
  unfold h_mm_ss.
  rewrite !fmt_02d_two_digits by (apply Z.mod_pos_bound; lia).
  reflexivity.
Qed.

Lemma format_duration_minutes (n : Z) :
  0 < n < 3600 → format_duration (Some n) = m_ss n.
Proof.
  intros Hn. rewrite format_duration_nonzero by lia.
  assert (0 ≤ n `div` 60 < 60) as Hm.
  { split; [apply Z.div_pos; lia | apply Z.div_lt_upper_bound; lia]. }
  rewrite (Z.div_small (n `div` 60) 60) by done.
  rewrite (Z.mod_small (n `div` 60) 60) by done.
  cbn [Z.eqb negb]. unfold m_ss.
  rewrite fmt_02d_two_digits by (apply Z.mod_pos_bound; lia).
  reflexivity.
Qed.

Lemma m_ss_not_zero (n : Z) : 0 < n < 3600 → m_ss n ≠ "0:00"%string.
Proof.
  intros Hn. unfold m_ss.
  assert (0 ≤ n `div` 60 < 60) as Hm.
  { split; [apply Z.div_pos; lia | apply Z.div_lt_upper_bound; lia]. }
  assert (0 ≤ n `mod` 60 < 60) as Hs by (apply Z.mod_pos_bound; lia).
  pose proof (Z.div_mod n 60 ltac:(lia)) as Hdm.
  destruct (decide (n `div` 60 = 0)) as [Hz|Hnz].
  - rewrite Hz in *.
    assert (0 < n `mod` 60) as Hpos by lia.
    revert Hs Hpos. generalize (n `mod` 60). clear. intros s Hs Hpos.
    assert (s = Z.of_nat (Z.to_nat s)) as -> by lia.
    assert (0 < Z.to_nat s < 60)%nat as Hi by lia.
    generalize dependent (Z.to_nat s). clear. intros i Hi.
    destruct i as [|i]; [lia|].
    do 59 (destruct i as [|i]; [vm_compute; discriminate|]).
    lia.
  - revert Hm Hnz. generalize (n `div` 60). generalize (two_digits (n `mod` 60)).
    clear. intros t m Hm Hnz.
    assert (m = Z.of_nat (Z.to_nat m)) as -> by lia.
    assert (0 < Z.to_nat m < 60)%nat as Hi by lia.
    generalize dependent (Z.to_nat m). clear. intros i Hi.
    destruct i as [|i]; [lia|].
    do 59 (destruct i as [|i]; [vm_compute; discriminate|]).
    lia.
Qed.

(** C10. [format_duration] answers "unknown" for a missing duration and for
    a duration of 0 seconds.  For a positive duration [n] it answers
    hours, a colon, minutes on two digits, a colon, seconds on two digits
    when [n] is at least 3600, and minutes, a colon, seconds on two digits
    otherwise.  It never answers "0:00", whatever it is given. *)
Theorem format_duration_spec :
  format_duration None = "unknown"%string
  ∧ format_duration (Some 0) = "unknown"%string
  ∧ (∀ n, 0 < n →
       format_duration (Some n) = if 3600 <=? n then h_mm_ss n else m_ss n)
  ∧ (∀ k, String.length (two_digits k) = 2%nat)
  ∧ (∀ seconds, format_duration seconds ≠ "0:00"%string).
Proof.
  split; [done|]. split; [done|]. split; [|split; [done|]].
  - intros n Hn. destruct (3600 <=? n) eqn:E.
    + apply Z.leb_le in E. by apply format_duration_hours.
    + apply Z.leb_gt in E. by apply format_duration_minutes.
  - intros [n|]; [|done].
    destruct (decide (n = 0)) as [->|Hn]; [done|].
    destruct (decide ((n `div` 60) `div` 60 = 0)) as [Hh|Hh].
    + assert (0 ≤ n < 3600) as Hr.
      { apply Z.div_small_iff in Hh; [|lia]. destruct Hh as [Hh|Hh]; [|lia].
        pose proof (Z.div_mod n 60 ltac:(lia)).
        pose proof (Z.mod_pos_bound n 60 ltac:(lia)). lia. }
      rewrite format_duration_minutes by lia. apply m_ss_not_zero. lia.
    + rewrite format_duration_nonzero by done.
      rewrite (proj2 (Z.eqb_neq _ 0)) by done. cbn [negb].
      intros Heq. apply (f_equal String.length) in Heq.
      rewrite !string_length_app in Heq.
      pose proof (fmt_02d_length ((n `div` 60) `mod` 60)).
      pose proof (fmt_02d_length (n `mod` 60)).
      simpl in Heq. lia.
Qed.

(** ** Threads *)

Section ThreadFacts.

Variable build_raises : string -> option Exception.
Variable play_raises : AudioSource -> option Exception.

Lemma vc_stop_with_player (p : Player) (vc : VoiceClient) :
  vc_stop (with_player p vc) = vc_stop vc.
Proof. reflexivity. Qed.

(** A start-next evaluation changes nothing of the sink but its player. *)
Lemma start_next_song_same_connection (g : Z) (w : World) :
  same_connection g w (start_next_song build_raises play_raises g w).2.
Proof.
  unfold same_connection.
  destruct (get_guild g w) as [guild|] eqn:H;
    [|by rewrite (start_next_song_no_guild _ _ _ _ H)].
  destruct (queue_of g w) as [|song rest] eqn:Hq.
  { destruct (start_next_song_on_empty build_raises play_raises g w Hq)
      as (_ & Hg & _).
    by rewrite (sink_of_guilds _ _ _ Hg). }
  destruct (voice_client guild) as [vc|] eqn:Hvc.
  - destruct (is_connected vc) eqn:Hc.
    + destruct (busy (Some vc)) eqn:Hb.
      * by rewrite (start_next_song_busy _ _ _ _ _ _ _ _ H Hq Hvc Hc Hb).
      * rewrite (start_next_song_idle _ _ _ _ _ _ H Hvc Hc Hb). cbn [snd].
        rewrite (sink_of_start_outcome _ _ _ _ _ _ H Hvc).
        rewrite (sink_of_known _ _ _ H), Hvc. unfold started.
        destruct (drop_rejected build_raises play_raises (queue_of g w))
          as [|s ?]; [done|].
        by destruct (unbuildable build_raises s).
    + destruct (start_next_song_unreachable build_raises play_raises g w guild H)
        as (_ & _ & Hg & _).
      { by rewrite Hvc. }
      by rewrite (sink_of_guilds _ _ _ Hg).
  - destruct (start_next_song_unreachable build_raises play_raises g w guild H)
      as (_ & _ & Hg & _).
    { by rewrite Hvc. }
    by rewrite (sink_of_guilds _ _ _ Hg).
Qed.

(** Nor does the evaluation scheduled by the completion handler. *)
Lemma after_play_next_same_connection (g : Z) (w : World) :
  same_connection g w (after_play_next build_raises play_raises g w).
Proof.
  destruct (after_play_next_state build_raises play_raises g w) as (Hg & _).
  pose proof (start_next_song_same_connection g w) as H.
  unfold same_connection in *. by rewrite (sink_of_guilds _ _ _ Hg).
Qed.

Lemma player_ends_sink (g : Z) (w : World) :
  sink_of g (player_ends g w)
  = (λ vc, if is_playing vc then vc_stop vc else vc) <$> sink_of g w.
Proof.
  unfold player_ends. fold (sink_of g w).
  destruct (sink_of g w) as [vc|] eqn:E; [|by rewrite E].
  destruct (is_playing vc) eqn:Hp; [|rewrite E; simpl; by rewrite Hp].
  unfold sink_of in E. destruct (get_guild g w) as [guild|] eqn:H; [|done].
  rewrite (sink_of_set_voice_client g _ guild) by done. simpl. by rewrite Hp.
Qed.

Lemma player_ends_queues (g : Z) (w : World) :
  music_queues (player_ends g w) = music_queues w.
Proof.
  unfold player_ends. destruct (sink_of g w); [|done].
  by destruct (is_playing v).
Qed.

(** No step of the completion thread changes the connection of the sink. *)
Lemma completion_step_same_connection (g : Z) (st : Step) (w : World) :
  on_completion_thread g st →
  same_connection g w (exec build_raises play_raises st w).
Proof.
  destruct st as [g'|g' e|g'| | | |]; simpl; try done; intros ->.
  - unfold same_connection. rewrite player_ends_sink.
    destruct (sink_of g w) as [vc|]; [|done]. simpl.
    by destruct (is_playing vc).
  - unfold same_connection.
    destruct (after_play_pop_facts g e w) as (_ & Hg & _).
    by rewrite (sink_of_guilds _ _ _ Hg).
  - apply after_play_next_same_connection.
Qed.

(** No step of the completion thread refills an empty queue. *)
Lemma completion_step_keeps_empty (g : Z) (st : Step) (w : World) :
  on_completion_thread g st → queue_of g w = [] →
  queue_of g (exec build_raises play_raises st w) = [].
Proof.
  destruct st as [g'|g' e|g'| | | |]; simpl; try done; intros -> Hq.
  - unfold queue_of. by rewrite player_ends_queues.
  - destruct (after_play_pop_facts g e w) as (Hq' & _).
    by rewrite Hq', Hq.
  - destruct (after_play_next_on_empty build_raises play_raises g w Hq)
      as (_ & _ & _ & Hq').
    by rewrite Hq'.
Qed.

(** On an empty queue and an idle sink the completion thread changes
    nothing of the sink. *)
Lemma completion_step_keeps_idle (g : Z) (st : Step) (w : World) :
  on_completion_thread g st → queue_of g w = [] →
  busy (sink_of g w) = false →
  sink_of g (exec build_raises play_raises st w) = sink_of g w.
Proof.
  destruct st as [g'|g' e|g'| | | |]; simpl; try done; intros -> Hq Hb.
  - rewrite player_ends_sink. destruct (sink_of g w) as [vc|]; [|done].
    simpl in *. apply orb_false_iff in Hb as [-> _]. done.
  - destruct (after_play_pop_facts g e w) as (_ & Hg & _).
    by rewrite (sink_of_guilds _ _ _ Hg).
  - destruct (after_play_next_on_empty build_raises play_raises g w Hq)
      as (Hg & _).
    by rewrite (sink_of_guilds _ _ _ Hg).
Qed.

Lemma same_connection_trans (g : Z) (w w1 w2 : World) :
  same_connection g w w1 → same_connection g w1 w2 → same_connection g w w2.
Proof. unfold same_connection. congruence. Qed.

Lemma stop_phase_start (g : Z) (w : World) : stop_phase 0 g w w.
Proof. reflexivity. Qed.

Lemma stop_phase_completion (n : nat) (g : Z) (st : Step) (w w' : World) :
  on_completion_thread g st →
  stop_phase n g w w' → stop_phase n g w (exec build_raises play_raises st w').
Proof.
  intros Hst. destruct n as [|[|n]]; simpl.
  - intros H. eapply same_connection_trans; [done|].
    by apply completion_step_same_connection.
  - intros [H Hq]. split.
    + eapply same_connection_trans; [done|].
      by apply completion_step_same_connection.
    + by apply completion_step_keeps_empty.
  - intros [Hq H]. split.
    + by apply completion_step_keeps_empty.
    + rewrite <- H. apply completion_step_keeps_idle; [done..|].
      rewrite H. apply busy_vc_stop.
Qed.

Lemma stop_phase_clear (g : Z) (w w' : World) :
  stop_phase 0 g w w' →
  stop_phase 1 g w (exec build_raises play_raises (StopClear g) w').
Proof.
  simpl. intros H.
  destruct (stop_cmd_clear_facts g w') as (_ & Hg & _).
  split.
  - unfold same_connection in *. by rewrite (sink_of_guilds _ _ _ Hg).
  - rewrite stop_cmd_clear_queue_of. by rewrite decide_True.
Qed.

Lemma stop_phase_sink (g : Z) (w w' : World) :
  stop_phase 1 g w w' →
  stop_phase 2 g w (exec build_raises play_raises (StopSink g) w').
Proof.
  simpl. intros [H Hq]. split.
  - unfold queue_of. destruct (stop_cmd_sink_queues g w') as [-> _]. done.
  - rewrite stop_cmd_sink_sink. done.
Qed.

Lemma stop_phase_done (g : Z) (w w' : World) :
  stop_phase 2 g w w' → observe g w' = ([], vc_stop <$> sink_of g w).
Proof. simpl. intros [Hq Hs]. unfold observe. by rewrite Hq, Hs. Qed.

(** Whatever the merge of [stop_cmd] with a completion signal, the guild
    ends with an empty queue and a stopped sink. *)
Lemma stop_interleaving_outcome (g : Z) (error : option Exception)
    (w : World) (sched : list Step) :
  sched ∈ interleavings (stop_thread g) (completion_thread g error) →
  observe g (run build_raises play_raises sched w) = ([], vc_stop <$> sink_of g w).
Proof.
  intros Hin. apply stop_phase_done.
  pose proof (stop_phase_start g w) as H0.
  assert (on_completion_thread g (PlayerEnds g)) as C1 by reflexivity.
  assert (on_completion_thread g (AfterPlayPop g error)) as C2 by reflexivity.
  assert (on_completion_thread g (AfterPlayNext g)) as C3 by reflexivity.
  cbn in Hin.
  repeat (apply elem_of_cons in Hin as [-> | Hin]);
    [..|by apply elem_of_nil in Hin];
    cbn [run];
    eauto 8 using stop_phase_completion, stop_phase_clear, stop_phase_sink.
Qed.

(** C3, as the code has it.  The code takes no lock.  The completion
    handler pops the queue on the thread of the sink and hands only the
    start-next evaluation to the event loop.  With [stop_cmd] this cannot
    go wrong: whatever the merge of the steps of [stop_cmd] with those of
    a completion signal (the player ends, the handler pops, the evaluation
    runs), the guild ends as when one runs wholly before the other, with
    an empty queue and a stopped sink. *)
Theorem stop_and_completion_serialized (g : Z) (error : option Exception)
    (w : World) :
  serialized build_raises play_raises (stop_thread g) (completion_thread g error) g w
  ∧ ∀ sched,
      sched ∈ interleavings (stop_thread g) (completion_thread g error) →
      observe g (run build_raises play_raises sched w) = ([], vc_stop <$> sink_of g w).
Proof.
  split; [|intros sched; apply stop_interleaving_outcome].
  intros sched Hin. left.
  rewrite (stop_interleaving_outcome g error w sched Hin).
  symmetry. apply (stop_interleaving_outcome g error).
  cbn. apply elem_of_cons. by left.
Qed.

End ThreadFacts.

(** * The claims on concrete guilds *)


(** C2 as stated fails: a sink that lost its connection still reports
    playing, and the evaluation empties the queue. *)
Lemma start_next_song_busy_counterexample :
  let w := world_of (Some (client_reconnecting song_A)) [song_A; song_B] in
  busy (sink_of 1 w) = true
  ∧ queue_of 1 w = [song_A; song_B]
  ∧ queue_of 1 (start_next_song build_all accept_all 1 w).2 = []
  ∧ queue_of 1 (start_next_song build_all accept_all 1 w).2 ≠ queue_of 1 w.
Proof. vm_compute. repeat split; discriminate. Qed.

Lemma start_next_song_busy_starts_nothing_witness :
  let w := world_of (Some (client_playing song_A)) [song_A; song_B] in
  busy (Some (client_playing song_A)) = true
  ∧ start_next_song build_all accept_all 1 w = (None, w)
  ∧ queue_of 1 (start_next_song build_all accept_all 1 w).2 = [song_A; song_B]
  ∧ calls (start_next_song build_all accept_all 1 w).2 = [].
Proof.
  intros w.
  destruct (start_next_song_busy_starts_nothing build_all accept_all 1 w
              (guild_one (Some (client_playing song_A)))
              (client_playing song_A) eq_refl eq_refl eq_refl)
    as (Hr & _ & _ & Hc & _ & Hw & _).
  destruct (Hw eq_refl) as [Hq Hsame].
  split_and!; [reflexivity | | exact Hq | exact Hc].
  rewrite (surjective_pairing (start_next_song build_all accept_all 1 w)).
  rewrite Hr, Hsame; [reflexivity | discriminate].
Defined.





(** C6 at work: stop while [song_A] plays and two songs are queued. *)
Lemma stop_clears_and_idles_witness :
  let w := world_of (Some (client_playing song_A)) [song_A; song_B] in
  let w' := (stop_cmd in_guild_1 w).2 in
  interaction_guild in_guild_1 w
  = Some (1, guild_one (Some (client_playing song_A)))
  ∧ length (queue_of 1 w') = 0%nat
  ∧ busy (sink_of 1 w') = false
  ∧ (stop_cmd in_guild_1 w').2 = w'
  ∧ queue_of 1 (_after_play build_all accept_all 1 None w') = [].
Proof.
  intros w w'.
  destruct (stop_clears_and_idles build_all accept_all in_guild_1 w 1
              (guild_one (Some (client_playing song_A))) eq_refl)
    as (_ & Hq & Hb & _ & Hi & _ & Ha).
  split_and!;
    [reflexivity | exact Hq | exact Hb | | exact (proj1 (Ha None))].
  fold w' in Hi. by rewrite Hi.
Defined.

(** C7 as stated fails: with no voice client the command is refused, and
    the queue is emptied all the same. *)
Lemma leave_not_connected_counterexample :
  let w := world_of None [song_A; song_B] in
  (leave_cmd in_guild_1 w).1 = {| content := NotConnected; ephemeral := true |}
  ∧ queue_of 1 w = [song_A; song_B]
  ∧ queue_of 1 (leave_cmd in_guild_1 w).2 = []
  ∧ queue_of 1 (leave_cmd in_guild_1 w).2 ≠ queue_of 1 w.
Proof. vm_compute. repeat split; discriminate. Qed.

Lemma leave_clears_queue_in_every_case_witness :
  let w := world_of (Some (client_playing song_A)) [song_A; song_B] in
  let w' := (leave_cmd in_guild_1 w).2 in
  queue_of 1 w' = [] ∧ sink_of 1 w' = None ∧ calls w' = [CallDisconnect 1].
Proof.
  intros w w'.
  destruct (leave_clears_queue_in_every_case in_guild_1 w 1
              (guild_one (Some (client_playing song_A))) eq_refl)
    as (Hq & _ & _ & _ & Hs & Hc).
  split_and!; [exact Hq | exact Hs | exact Hc].
Defined.

(** C8 at work: skip on an idle guild is refused and changes nothing; skip
    while [song_A] plays leaves the queue to the completion handler. *)
Lemma skip_leaves_queue_to_completion_witness :
  let w := world_of (Some idle_client) [song_B] in
  let v := world_of (Some (client_playing song_A)) [song_A; song_B] in
  (skip_cmd in_guild_1 w).2 = w
  ∧ ephemeral (skip_cmd in_guild_1 w).1 = true
  ∧ music_queues (skip_cmd in_guild_1 v).2 = music_queues v
  ∧ ephemeral (skip_cmd in_guild_1 v).1 = false.
Proof.
  intros w v.
  destruct (skip_leaves_queue_to_completion in_guild_1 w) as (_ & _ & Hw & _).
  destruct (skip_leaves_queue_to_completion in_guild_1 v) as (Hv & _).
  destruct (Hw eq_refl) as [He Hu].
  split_and!; [exact Hu | exact He | exact Hv | reflexivity].
Defined.

(** C9 at work: [song_B] asked for while [song_A] plays. *)
Lemma enqueue_while_busy_appends_witness :
  let w := world_of (Some (client_playing song_A)) [song_A] in
  let r := (play_cmd_enqueue build_all accept_all 1 song_B w).1 in
  let w' := (play_cmd_enqueue build_all accept_all 1 song_B w).2 in
  busy (sink_of 1 w) = true
  ∧ r = inr {| content := AddedToQueue 2 song_B; ephemeral := false |}
  ∧ queue_of 1 w' = [song_A; song_B]
  ∧ guilds w' = guilds w
  ∧ calls w' = [].
Proof.
  intros w r w'.
  destruct (enqueue_while_busy_appends build_all accept_all 1 song_B w eq_refl)
    as (Hr & _ & Hq & _ & Hg & Hc & _).
  split_and!; [reflexivity | exact Hr | exact Hq | exact Hg | exact Hc].
Defined.

(** The scenario of the specification, through the commands: [song_A] is
    asked for on an idle, connected guild and starts; [song_B] is asked for
    while it plays and is reported at position 2; the completion signal of
    [song_A] removes it and starts [song_B]. *)
Example scenario_two_songs :
  let w0 := world_of (Some idle_client) [] in
  let '(r1, w1) := play_cmd build_all accept_all in_guild_1 (fetches song_A) w0 in
  let '(r2, w2) := play_cmd build_all accept_all in_guild_1 (fetches song_B) w1 in
  let w3 := _after_play build_all accept_all 1 None (player_ends 1 w2) in
  r1 = inr {| content := NowPlaying song_A; ephemeral := false |}
  ∧ observe 1 w1 = ([song_A], Some (client_playing song_A))
  ∧ r2 = inr {| content := AddedToQueue 2 song_B; ephemeral := false |}
  ∧ observe 1 w2 = ([song_A; song_B], Some (client_playing song_A))
  ∧ observe 1 w3 = ([song_B], Some (client_playing song_B)).
Proof. vm_compute. done. Qed.

(** C10 at work. *)
Lemma format_duration_spec_witness :
  format_duration (Some 3725) = "1:02:05"%string
  ∧ format_duration (Some 225) = "3:45"%string
  ∧ format_duration (Some 59) = "0:59"%string
  ∧ format_duration (Some 0) = "unknown"%string.
Proof.
  destruct format_duration_spec as (_ & H0 & Hn & _).
  split_and!; [ | | | exact H0].
  - rewrite (Hn 3725) by lia. vm_compute. reflexivity.
  - rewrite (Hn 225) by lia. vm_compute. reflexivity.
  - rewrite (Hn 59) by lia. vm_compute. reflexivity.
Defined.

(** C3 as stated fails: nothing keeps the tail of [play_cmd] from running
    between the end of the player and the pop of its handler.  [song_A] is
    playing and alone in the queue; it ends; [play_cmd] for [song_B]
    appends, finds the sink idle and starts the head, which is still
    [song_A]; only then does the handler pop.  [song_A] sounds again and
    the queue holds [song_B], which neither order of the two threads run
    whole can give. *)
Lemma enqueue_completion_race_counterexample :
  let w := world_of (Some (client_playing song_A)) [song_A] in
  let raced := [PlayerEnds 1; PlayAppend 1 song_B; PlayDecide 1 song_B;
                AfterPlayPop 1 None; AfterPlayNext 1] in
  raced ∈ interleavings (play_thread 1 song_B) (completion_thread 1 None)
  ∧ observe 1 (run build_all accept_all raced w)
    = ([song_B], Some (client_playing song_A))
  ∧ observe 1 (run build_all accept_all
                 (play_thread 1 song_B ++ completion_thread 1 None) w)
    = ([song_B], Some (client_playing song_B))
  ∧ observe 1 (run build_all accept_all
                 (completion_thread 1 None ++ play_thread 1 song_B) w)
    = ([song_B], Some (client_playing song_B))
  ∧ ¬ serialized build_all accept_all (play_thread 1 song_B) (completion_thread 1 None)
        1 w.
Proof.
  intros w raced.
  assert (raced ∈ interleavings (play_thread 1 song_B)
                    (completion_thread 1 None)) as Hin.
  { cbn. do 4 apply list_elem_of_further. apply list_elem_of_here. }
  split_and!; [exact Hin | reflexivity | reflexivity | reflexivity |].
  intros Hser. destruct (Hser raced Hin) as [H|H];
    vm_compute in H; discriminate.
Qed.

(** * Beyond the claims *)

(** ** Guilds do not interfere *)

Lemma only_touches_refl (g : Z) (w : World) : only_touches g w w.
Proof. by split. Qed.

Lemma only_touches_trans (g : Z) (w1 w2 w3 : World) :
  only_touches g w1 w2 → only_touches g w2 w3 → only_touches g w1 w3.
Proof.
  intros [H1 K1] [H2 K2]. split.
  - intros g' Hne. destruct (H1 g' Hne) as [E1 E2].
    destruct (H2 g' Hne) as [E3 E4]. split; congruence.
  - intros k Hk. by apply K2, K1.
Qed.

Lemma only_touches_same_maps (g : Z) (w w' : World) :
  guilds w' = guilds w → music_queues w' = music_queues w →
  only_touches g w w'.
Proof.
  intros Hg Hm. split.
  - intros g' _. unfold queue_of, get_guild. by rewrite Hg, Hm.
  - intros k. by rewrite Hm.
Qed.

Lemma only_touches_set_queue (g : Z) (q : list Song) (w : World) :
  only_touches g w (set_queue g q w).
Proof.
  split.
  - intros g' Hne. by rewrite queue_of_set_queue_ne.
  - intros k Hk. unfold set_queue. simpl.
    destruct (decide (g = k)) as [->|Hne].
    + rewrite lookup_insert_eq. by eexists.
    + by rewrite lookup_insert_ne.
Qed.

Lemma only_touches_get_queue (g : Z) (w : World) :
  only_touches g w (get_queue g w).2.
Proof.
  split.
  - intros g' _. split; [apply get_queue_queue_of|].
    unfold get_guild. by rewrite get_queue_guilds.
  - intros k Hk. rewrite get_queue_created.
    destruct (decide (g = k)) as [->|Hne].
    + rewrite lookup_insert_eq. by eexists.
    + by rewrite lookup_insert_ne.
Qed.

Lemma only_touches_set_voice_client (g : Z) (o : option VoiceClient)
    (w : World) :
  only_touches g w (set_voice_client g o w).
Proof.
  split; [|done].
  intros g' Hne. split; [done|].
  unfold get_guild, set_voice_client. simpl. by rewrite lookup_alter_ne.
Qed.

Lemma only_touches_pop_head (g : Z) (w : World) :
  only_touches g w (pop_head g w).
Proof.
  unfold pop_head. destruct (get_queue g w) as [q w1] eqn:E.
  assert (w1 = (get_queue g w).2) as -> by (by rewrite E).
  destruct q.
  - apply only_touches_get_queue.
  - eapply only_touches_trans;
      [apply only_touches_get_queue | apply only_touches_set_queue].
Qed.

Section OperationFacts.

Variable build_raises : string -> option Exception.
Variable play_raises : AudioSource -> option Exception.

(** The four ways a start-next evaluation can end. *)
Lemma start_next_song_cases (g : Z) (w : World) :
  start_next_song build_raises play_raises g w = (None, w)
  ∨ start_next_song build_raises play_raises g w = (None, (get_queue g w).2)
  ∨ start_next_song build_raises play_raises g w = (None, set_queue g [] w)
  ∨ ∃ guild vc,
      get_guild g w = Some guild ∧ voice_client guild = Some vc
      ∧ is_connected vc = true ∧ busy (Some vc) = false
      ∧ start_next_song build_raises play_raises g w
        = (start_raises build_raises play_raises (queue_of g w),
           start_outcome build_raises play_raises g guild vc w).
Proof.
  destruct (get_guild g w) as [guild|] eqn:H;
    [|left; by apply start_next_song_no_guild].
  destruct (queue_of g w) as [|song rest] eqn:Hq;
    [right; left; by apply start_next_song_empty with guild|].
  destruct (voice_client guild) as [vc|] eqn:Hvc.
  - destruct (is_connected vc) eqn:Hc.
    + destruct (busy (Some vc)) eqn:Hb.
      * left. by apply start_next_song_busy with guild vc song rest.
      * right; right; right. exists guild, vc. split_and!; try done.
        rewrite <- Hq. by apply start_next_song_idle.
    + right; right; left. apply start_next_song_no_sink with guild song rest;
        [done..|by rewrite Hvc].
  - right; right; left. apply start_next_song_no_sink with guild song rest;
      [done..|by rewrite Hvc].
Qed.

Lemma only_touches_start_outcome (g : Z) (guild : Guild) (vc : VoiceClient)
    (w : World) :
  only_touches g w (start_outcome build_raises play_raises g guild vc w).
Proof.
  split.
  - intros g' Hne. unfold queue_of, get_guild, start_outcome. simpl.
    rewrite lookup_insert_ne by done. split; [done|].
    destruct (drop_rejected build_raises play_raises _) as [|s ?]; [done|].
    destruct (unbuildable build_raises s); [done|].
    by rewrite lookup_alter_ne.
  - intros k Hk. unfold start_outcome. simpl.
    destruct (decide (g = k)) as [->|Hne].
    + rewrite lookup_insert_eq. by eexists.
    + by rewrite lookup_insert_ne.
Qed.

Lemma only_touches_start_next_song (g : Z) (w : World) :
  only_touches g w (start_next_song build_raises play_raises g w).2.
Proof.
  destruct (start_next_song_cases g w)
    as [-> | [-> | [-> | (guild & vc & _ & _ & _ & _ & ->)]]].
  - apply only_touches_refl.
  - apply only_touches_get_queue.
  - apply only_touches_set_queue.
  - apply only_touches_start_outcome.
Qed.

Lemma only_touches_after_play_next (g : Z) (w : World) :
  only_touches g w (after_play_next build_raises play_raises g w).
Proof.
  destruct (after_play_next_state build_raises play_raises g w)
    as (Hg & Hm & _).
  eapply only_touches_trans; [apply only_touches_start_next_song|].
  by apply only_touches_same_maps.
Qed.

Lemma only_touches_after_play (g : Z) (error : option Exception) (w : World) :
  only_touches g w (_after_play build_raises play_raises g error w).
Proof.
  unfold _after_play, after_play_pop.
  eapply only_touches_trans; [|apply only_touches_after_play_next].
  eapply only_touches_trans; [|apply only_touches_pop_head].
  destruct error; [by apply only_touches_same_maps | apply only_touches_refl].
Qed.

Lemma only_touches_player_ends (g : Z) (w : World) :
  only_touches g w (player_ends g w).
Proof.
  unfold player_ends. destruct (sink_of g w) as [vc|]; [|apply only_touches_refl].
  destruct (is_playing vc); [|apply only_touches_refl].
  apply only_touches_set_voice_client.
Qed.

Lemma only_touches_stop_cmd_clear (g : Z) (w : World) :
  only_touches g w (stop_cmd_clear g w).
Proof.
  unfold stop_cmd_clear. destruct (get_queue g w) as [q w1] eqn:E.
  assert (w1 = (get_queue g w).2) as -> by (by rewrite E).
  eapply only_touches_trans;
    [apply only_touches_get_queue | apply only_touches_set_queue].
Qed.

Lemma only_touches_stop_cmd_sink (g : Z) (w : World) :
  only_touches g w (stop_cmd_sink g w).
Proof.
  unfold stop_cmd_sink. destruct (sink_of g w) as [vc|]; [|apply only_touches_refl].
  destruct (is_playing vc || is_paused vc); [|apply only_touches_refl].
  eapply only_touches_trans; [|apply only_touches_set_voice_client].
  by apply only_touches_same_maps.
Qed.

Lemma only_touches_play_cmd_append (g : Z) (song : Song) (w : World) :
  only_touches g w (play_cmd_append g song w).
Proof.
  unfold play_cmd_append. destruct (get_queue g w) as [q w1] eqn:E.
  assert (w1 = (get_queue g w).2) as -> by (by rewrite E).
  eapply only_touches_trans;
    [apply only_touches_get_queue | apply only_touches_set_queue].
Qed.

Lemma only_touches_play_cmd_enqueue (g : Z) (song : Song) (w : World) :
  only_touches g w (play_cmd_enqueue build_raises play_raises g song w).2.
Proof.
  unfold play_cmd_enqueue, play_cmd_decide.
  eapply only_touches_trans; [apply only_touches_play_cmd_append|].
  destruct (negb (busy _)); [|apply only_touches_refl].
  pose proof (only_touches_start_next_song g (play_cmd_append g song w)) as H.
  by destruct (start_next_song build_raises play_raises g
                 (play_cmd_append g song w)) as [[?|] ?].
Qed.

Lemma only_touches_play_cmd_join (g : Z) (guild : Guild) (ch : Z)
    (env : PlayEnv) (w : World) :
  only_touches g w (play_cmd_join g guild ch env w).2.
Proof.
  assert (∀ c o, only_touches g w (set_voice_client g o (call c w))) as Hset.
  { intros c o. eapply only_touches_trans;
      [|apply only_touches_set_voice_client].
    by apply only_touches_same_maps. }
  assert (∀ c, only_touches g w (call c w)) as Hcall
    by (intros c; by apply only_touches_same_maps).
  unfold play_cmd_join. destruct (voice_client guild) as [vc|].
  - destruct (negb (is_connected vc)).
    + destruct (connect_raises env); cbn [snd]; [apply Hcall | apply Hset].
    + destruct (negb (bool_decide (channel vc = ch)));
        [|apply only_touches_refl].
      destruct (move_raises env); cbn [snd]; [apply Hcall | apply Hset].
  - destruct (connect_raises env); cbn [snd]; [apply Hcall | apply Hset].
Qed.

(** Every operation leaves alone the guilds it is not about, and removes
    no queue. *)
Lemma apply_op_only_touches (op : Op) (w : World) :
  match op_guild op with
  | Some g => only_touches g w (apply_op build_raises play_raises op w)
  | None => apply_op build_raises play_raises op w = w
  end.
Proof.
  assert (∀ i g guild, interaction_guild i w = Some (g, guild) →
            guild_id_of i = Some g) as Hid
    by (intros i g guild Hi; by destruct (interaction_guild_known _ _ _ _ Hi)).
  assert (∀ i, interaction_guild i w = None →
            match guild_id_of i with
            | Some g => only_touches g w w
            | None => w = w
            end) as Hnone
    by (intros i _; destruct (guild_id_of i); [apply only_touches_refl | done]).
  destruct op as [i env|i|i|i|i|g|g error]; simpl.
  - unfold play_cmd.
    destruct (interaction_guild i w) as [[g guild]|] eqn:Hi; [|by apply Hnone].
    rewrite (Hid _ _ _ Hi).
    destruct (user_channel i) as [ch|]; [|apply only_touches_refl].
    pose proof (only_touches_play_cmd_join g guild ch env w) as Hj.
    destruct (play_cmd_join g guild ch env w) as [[e|] w1]; [done|].
    destruct (fetched env) as [e|song]; [done|].
    eapply only_touches_trans; [exact Hj|].
    apply only_touches_play_cmd_enqueue.
  - unfold skip_cmd.
    destruct (interaction_guild i w) as [[g guild]|] eqn:Hi; [|by apply Hnone].
    rewrite (Hid _ _ _ Hi).
    destruct (voice_client guild) as [vc|]; [|apply only_touches_refl].
    destruct (negb (is_connected vc)); [apply only_touches_refl|].
    destruct (negb (is_playing vc) && negb (is_paused vc));
      [apply only_touches_refl|].
    cbn [snd]. eapply only_touches_trans;
      [|apply only_touches_set_voice_client].
    by apply only_touches_same_maps.
  - unfold stop_cmd.
    destruct (interaction_guild i w) as [[g guild]|] eqn:Hi; [|by apply Hnone].
    rewrite (Hid _ _ _ Hi). cbn [snd].
    eapply only_touches_trans;
      [apply only_touches_stop_cmd_clear | apply only_touches_stop_cmd_sink].
  - destruct (interaction_guild i w) as [[g guild]|] eqn:Hi;
      [|unfold leave_cmd; rewrite Hi; by apply Hnone].
    rewrite (Hid _ _ _ Hi), (leave_cmd_unfold _ _ _ _ Hi).
    pose proof (only_touches_stop_cmd_clear g w) as Hc.
    destruct (voice_client guild) as [vc|]; [|done].
    destruct (is_connected vc); [|done]. cbn [snd].
    eapply only_touches_trans; [exact Hc|].
    eapply only_touches_trans; [|apply only_touches_set_voice_client].
    by apply only_touches_same_maps.
  - unfold queue_cmd.
    destruct (interaction_guild i w) as [[g guild]|] eqn:Hi; [|by apply Hnone].
    rewrite (Hid _ _ _ Hi).
    pose proof (only_touches_get_queue g w) as Hq.
    destruct (get_queue g w) as [q w1]. by destruct q.
  - apply only_touches_player_ends.
  - apply only_touches_after_play.
Qed.

(** X1. Whatever operation runs (a command, the end of a player, a
    completion signal), a guild it is not about keeps its queue and its
    voice client exactly as they were. *)
Theorem operations_leave_other_guilds_alone (op : Op) (w : World) (g' : Z) :
  op_guild op ≠ Some g' →
  queue_of g' (apply_op build_raises play_raises op w) = queue_of g' w
  ∧ sink_of g' (apply_op build_raises play_raises op w) = sink_of g' w.
Proof.
  intros Hne. pose proof (apply_op_only_touches op w) as H.
  destruct (op_guild op) as [g|]; [|by rewrite H].
  destruct H as [H _].
  destruct (H g') as [Hq Hg]; [congruence|].
  unfold sink_of. by rewrite Hq, Hg.
Qed.

(** X2. No sequence of operations ever removes a guild's entry from
    [music_queues]: a queue that exists stays, possibly empty. *)
Theorem queues_are_never_removed (ops : list Op) (w : World) (k : Z) :
  is_Some (music_queues w !! k) →
  is_Some (music_queues (apply_ops build_raises play_raises ops w) !! k).
Proof.
  revert w. induction ops as [|op ops IH]; intros w Hk; [done|].
  simpl. apply IH.
  pose proof (apply_op_only_touches op w) as H.
  destruct (op_guild op) as [g|]; [|by rewrite H].
  destruct H as [_ H]. by apply H.
Qed.

(** ** The sink plays the head of the queue *)











(** ** start_next_song returns, and only shortens the queue *)


(** ** queue_cmd *)

Lemma queue_cmd_unfold (i : Interaction) (w : World) (g : Z) (guild : Guild) :
  interaction_guild i w = Some (g, guild) →
  queue_cmd i w
  = ({| listing :=
          match queue_of g w with
          | [] => QueueIsEmpty
          | _ :: _ =>
            QueueEmbed
              (imap (λ k song, queue_line (voice_client guild) (S k) song)
                    (queue_of g w))
          end;
        listing_ephemeral := false |},
     (get_queue g w).2).
Proof.
  intros Hi. unfold queue_cmd. rewrite Hi.
  destruct (get_queue g w) as [q w1] eqn:E.
  assert (q = queue_of g w) as <- by (by rewrite <- get_queue_fst, E).
  by destruct q.
Qed.

(** X5. For a command that comes from a known guild, [queue_cmd] answers
    "the queue is empty" exactly when the queue is empty, and otherwise
    lists the queue in order, one line per song, with the title, link,
    requester and formatted duration of that song.  Lines are numbered
    from 1; the first line carries the playing mark instead of its number
    exactly when the guild has a voice client that reports playing (not
    when it is paused).  The command changes no queue, no voice client, and
    makes no call. *)
Theorem queue_cmd_lists_the_queue (i : Interaction) (w : World) (g : Z)
    (guild : Guild) :
  interaction_guild i w = Some (g, guild) →
  let r := (queue_cmd i w).1 in
  let w' := (queue_cmd i w).2 in
  listing_ephemeral r = false
  ∧ (queue_of g w = [] ↔ listing r = QueueIsEmpty)
  ∧ (queue_of g w ≠ [] →
     ∃ lines,
       listing r = QueueEmbed lines
       ∧ length lines = length (queue_of g w)
       ∧ ∀ k song, queue_of g w !! k = Some song →
           ∃ line, lines !! k = Some line
             ∧ line_title line = title song
             ∧ line_link line = webpage_url song
             ∧ line_requester line = display_name (requested_by song)
             ∧ line_duration line = format_duration (Some (duration song))
             ∧ line_prefix line
               = if bool_decide (k = 0%nat)
                    && bool_decide (is_playing <$> voice_client guild
                                    = Some true)
                 then PlayingMark else Numbered (S k))
  ∧ guilds w' = guilds w ∧ calls w' = calls w ∧ stdout w' = stdout w
  ∧ (∀ g', queue_of g' w' = queue_of g' w).
Proof.
  intros Hi. simpl. rewrite (queue_cmd_unfold _ _ _ _ Hi). cbn [fst snd].
  rewrite get_queue_guilds, get_queue_calls, get_queue_stdout.
  split_and!; try done.
  - split; [by intros -> | by destruct (queue_of g w)].
  - intros Hne. destruct (queue_of g w) as [|s0 rest] eqn:Hq; [done|].
    eexists. split; [done|]. split; [by rewrite length_imap|].
    intros k song Hk. rewrite list_lookup_imap, Hk. simpl.
    eexists. split; [done|]. split_and!; try done.
    destruct k as [|k]; simpl; [|done].
    destruct (voice_client guild) as [vc|]; simpl; [|done].
    by destruct (is_playing vc).
  - intros g'. apply get_queue_queue_of.
Qed.

(** X6. The position reported when a song is enqueued behind a playing or
    paused track is the number of its line in the listing: that line is
    the last one, it shows the song, and from position 2 on its prefix is
    that number. *)
Theorem enqueue_position_is_listing_number (g : Z) (song : Song)
    (w : World) (i : Interaction) (guild : Guild) :
  busy (sink_of g w) = true →
  let r := (play_cmd_enqueue build_raises play_raises g song w).1 in
  let w1 := (play_cmd_enqueue build_raises play_raises g song w).2 in
  interaction_guild i w1 = Some (g, guild) →
  ∃ p lines line,
    r = inr {| content := AddedToQueue p song; ephemeral := false |}
    ∧ listing (queue_cmd i w1).1 = QueueEmbed lines
    ∧ length lines = p
    ∧ lines !! (p - 1)%nat = Some line
    ∧ line_title line = title song
    ∧ line_link line = webpage_url song
    ∧ ((1 < p)%nat → line_prefix line = Numbered p).
Proof.
  intros Hb. simpl. rewrite (play_cmd_enqueue_busy _ _ _ _ _ Hb). cbn [fst snd].
  intros Hi. rewrite (queue_cmd_unfold _ _ _ _ Hi). cbn [fst snd].
  destruct (play_cmd_append_facts g song w) as (Hq & _). rewrite Hq.
  set (q := queue_of g w).
  destruct (q ++ [song]) as [|s0 rest] eqn:E; [by destruct q|].
  rewrite <- E. clear E.
  exists (length (q ++ [song])). eexists.
  exists (queue_line (voice_client guild) (S (length q)) song).
  split_and!; try done.
  - by rewrite length_imap.
  - rewrite list_lookup_imap, length_app. simpl.
    replace (length q + 1 - 1)%nat with (length q) by lia.
    rewrite lookup_app_r by lia. by rewrite Nat.sub_diag.
  - rewrite length_app. simpl. intros Hp.
    replace (length q + 1)%nat with (S (length q)) by lia.
    unfold queue_line. simpl.
    destruct (length q) as [|n] eqn:Hl; [lia|]. done.
Qed.

(** ** fetch_song *)

(** X7. For a playlist or a search, [fetch_song] reads the first entry and
    nothing else: the other entries and the keys beside ["entries"] do not
    change its result.  A song it returns carries the text the user typed
    and the user who asked, and its stream is the ["url"] of the entry
    read. *)
Theorem fetch_song_reads_first_entry (extract_info : string -> Exception + Info)
    (text : string) (requester : User) (info : Info) (entry : Entry)
    (rest : list Entry) :
  extract_info text = inr info →
  entries info = Some (entry :: rest) →
  fetch_song extract_info text requester
  = fetch_song (λ _, inr {| entries := None; own := entry |}) text requester
  ∧ ∀ song, fetch_song extract_info text requester = inr song →
      url song = text ∧ requested_by song = requester
      ∧ info_url entry = Some (audio_url song).
Proof.
  intros He Hes. unfold fetch_song. rewrite He, Hes. simpl.
  split; [done|].
  intros song. destruct (info_url entry) as [audio|]; [|done].
  by intros [= <-].
Qed.

(** The entry [fetch_song] reads, if there is one. *)
Lemma fetch_song_on_entry (extract_info : string -> Exception + Info)
    (text : string) (requester : User) (info : Info) (entry : Entry) :
  extract_info text = inr info →
  match entries info with
  | Some es => head es = Some entry
  | None => own info = entry
  end →
  fetch_song extract_info text requester
  = match info_url entry with
    | None => inl (Raised "'url'")
    | Some audio =>
      inr {| url := text;
             title := default "Unknown title" (info_title entry);
             webpage_url := default text (info_webpage_url entry);
             duration := default 0 (info_duration entry);
             audio_url := audio;
             requested_by := requester |}
    end.
Proof.
  intros He Hpick. unfold fetch_song. rewrite He.
  destruct (entries info) as [[|e es]|]; simpl in Hpick; [done| |];
    by simplify_eq.
Qed.

(** X8. Every field of a song [fetch_song] returns is accounted for: the
    text the user typed, the user who asked and the stream of the entry
    read are carried over; a title, a page link and a duration that the
    entry has are kept as they are; a title that is missing becomes
    "Unknown title", a page link that is missing becomes the text the user
    typed, and a duration that is missing becomes 0 seconds, which every
    line and announcement then shows as "unknown". *)
Theorem fetch_song_fills_missing_metadata
    (extract_info : string -> Exception + Info) (text : string)
    (requester : User) (info : Info) (entry : Entry) (audio : string) :
  extract_info text = inr info →
  match entries info with
  | Some es => head es = Some entry
  | None => own info = entry
  end →
  info_url entry = Some audio →
  ∃ song,
    fetch_song extract_info text requester = inr song
    ∧ url song = text
    ∧ requested_by song = requester
    ∧ audio_url song = audio
    ∧ (info_title entry = None → title song = "Unknown title"%string)
    ∧ (info_webpage_url entry = None → webpage_url song = text)
    ∧ (info_duration entry = None →
       duration song = 0
       ∧ ∀ vc k, line_duration (queue_line vc k song) = "unknown"%string)
    ∧ (∀ t, info_title entry = Some t → title song = t)
    ∧ (∀ l, info_webpage_url entry = Some l → webpage_url song = l)
    ∧ (∀ n, info_duration entry = Some n → duration song = n)
    ∧ (∀ vc k, line_title (queue_line vc k song) = title song
               ∧ line_link (queue_line vc k song) = webpage_url song).
Proof.
  intros He Hpick Hu.
  rewrite (fetch_song_on_entry _ _ _ _ _ He Hpick), Hu.
  eexists. split; [done|]. simpl.
  split_and!; try done.
  - by intros ->.
  - by intros ->.
  - intros ->. done.
  - by intros t ->.
  - by intros l ->.
  - by intros n ->.
Qed.

Lemma play_cmd_join_keeps (g : Z) (guild : Guild) (ch : Z) (env : PlayEnv)
    (w : World) :
  let w1 := (play_cmd_join g guild ch env w).2 in
  music_queues w1 = music_queues w ∧ stdout w1 = stdout w
  ∧ Forall (λ c, ∀ g0 src, c ≠ CallPlay g0 src)
      (drop (length (calls w)) (calls w1))
  ∧ take (length (calls w)) (calls w1) = calls w.
Proof.
  assert (∀ c w1, calls w1 = calls w ++ [c] →
            (∀ g0 src, c ≠ CallPlay g0 src) →
            Forall (λ c, ∀ g0 src, c ≠ CallPlay g0 src)
              (drop (length (calls w)) (calls w1))
            ∧ take (length (calls w)) (calls w1) = calls w) as Hone.
  { intros c w1 -> Hc. rewrite drop_app_length, take_app_length.
    split; [by constructor | done]. }
  assert (Forall (λ c, ∀ g0 src, c ≠ CallPlay g0 src)
            (drop (length (calls w)) (calls w))
          ∧ take (length (calls w)) (calls w) = calls w) as Hnil.
  { rewrite drop_all, firstn_all. split; [constructor | done]. }
  simpl. unfold play_cmd_join. destruct (voice_client guild) as [vc|].
  - destruct (negb (is_connected vc)).
    + destruct (connect_raises env); cbn [snd]; (split; [done|]);
        (split; [done|]); by apply (Hone (CallConnect g ch)).
    + destruct (negb (bool_decide (channel vc = ch))); [|done].
      destruct (move_raises env); cbn [snd]; (split; [done|]);
        (split; [done|]); by apply (Hone (CallMoveTo g ch)).
  - destruct (connect_raises env); cbn [snd]; (split; [done|]);
      (split; [done|]); by apply (Hone (CallConnect g ch)).
Qed.

Lemma with_channel_same (vc : VoiceClient) : with_channel (channel vc) vc = vc.
Proof. by destruct vc. Qed.

(** What lines 201-213 do, case by case: the one call made, if any, and
    the voice client of the guild afterwards. *)
Lemma play_cmd_join_cases (g : Z) (guild : Guild) (ch : Z) (env : PlayEnv)
    (w : World) :
  get_guild g w = Some guild →
  let fresh := {| connected := true; channel := ch; player := NoPlayer |} in
  let attempt :=
    match voice_client guild with
    | Some vc =>
      if is_connected vc then
        if bool_decide (channel vc = ch) then None
        else Some (CallMoveTo g ch, move_raises env, with_channel ch vc)
      else Some (CallConnect g ch, connect_raises env, fresh)
    | None => Some (CallConnect g ch, connect_raises env, fresh)
    end in
  let r := play_cmd_join g guild ch env w in
  music_queues r.2 = music_queues w ∧ stdout r.2 = stdout w
  ∧ match attempt with
    | None => r = (None, w)
    | Some (c, Some e, _) =>
      r.1 = Some e ∧ guilds r.2 = guilds w ∧ calls r.2 = calls w ++ [c]
    | Some (c, None, vc') =>
      r.1 = None ∧ sink_of g r.2 = Some vc' ∧ calls r.2 = calls w ++ [c]
    end.
Proof.
  intros H. simpl. unfold play_cmd_join.
  destruct (voice_client guild) as [vc|].
  - destruct (is_connected vc); cbn [negb].
    + destruct (bool_decide (channel vc = ch)); cbn [negb]; [done|].
      destruct (move_raises env); cbn [fst snd]; split_and!; try done.
      by apply (sink_of_set_voice_client g _ guild).
    + destruct (connect_raises env); cbn [fst snd]; split_and!; try done.
      by apply (sink_of_set_voice_client g _ guild).
  - destruct (connect_raises env); cbn [fst snd]; split_and!; try done.
    by apply (sink_of_set_voice_client g _ guild).
Qed.

(** X9. A [play_cmd] that answers with a refusal (no guild, the user in no
    voice channel, the channel could not be joined, the text could not be
    resolved) changes no queue and prints nothing.  The calls it makes on
    the transport are known exactly: none in the first two cases and when
    the bot is already connected in the channel of the user; otherwise the
    one attempt to connect (no voice client, or one that is not connected)
    or to move (connected elsewhere), and nothing else: no start, no stop,
    no disconnect.  In the first two cases nothing changes at all; when
    joining failed the guilds are as they were; when the text could not be
    resolved the voice client is the one the join left. *)
Theorem refused_play_cmd_queues_nothing (i : Interaction) (env : PlayEnv)
    (w : World) (reply : Reply) :
  let r := (play_cmd build_raises play_raises i env w).1 in
  let w' := (play_cmd build_raises play_raises i env w).2 in
  r = inr reply → ephemeral reply = true →
  music_queues w' = music_queues w ∧ stdout w' = stdout w
  ∧ take (length (calls w)) (calls w') = calls w
  ∧ Forall (λ c, ∀ g src, c ≠ CallPlay g src)
      (drop (length (calls w)) (calls w'))
  ∧ calls w'
    = calls w ++
      match interaction_guild i w, user_channel i with
      | Some (g, guild), Some ch =>
        match voice_client guild with
        | Some vc =>
          if is_connected vc then
            if bool_decide (channel vc = ch) then []
            else [CallMoveTo g ch]
          else [CallConnect g ch]
        | None => [CallConnect g ch]
        end
      | _, _ => []
      end
  ∧ (interaction_guild i w = None ∨ user_channel i = None → w' = w)
  ∧ (∀ e, content reply = CouldntJoin e → guilds w' = guilds w)
  ∧ (∀ e g guild ch, content reply = CouldntGetAudio e →
       interaction_guild i w = Some (g, guild) → user_channel i = Some ch →
       sink_of g w'
       = Some match voice_client guild with
              | Some vc =>
                if is_connected vc then with_channel ch vc
                else {| connected := true; channel := ch; player := NoPlayer |}
              | None =>
                {| connected := true; channel := ch; player := NoPlayer |}
              end).
Proof.
  simpl. unfold play_cmd.
  assert (Forall (λ c, ∀ g0 src, c ≠ CallPlay g0 src)
            (drop (length (calls w)) (calls w))
          ∧ take (length (calls w)) (calls w) = calls w) as [Hn1 Hn2].
  { rewrite drop_all, firstn_all. split; [constructor | done]. }
  destruct (interaction_guild i w) as [[g guild]|] eqn:Hi.
  2: { intros [= <-] _. rewrite app_nil_r. done. }
  destruct (interaction_guild_known _ _ _ _ Hi) as [Hid H].
  destruct (user_channel i) as [ch|] eqn:Hch.
  2: { intros [= <-] _. rewrite app_nil_r. done. }
  destruct (play_cmd_join_keeps g guild ch env w) as (Hm & Hs & Hc & Ht).
  pose proof (play_cmd_join_cases g guild ch env w H) as (_ & _ & Hcases).
  destruct (play_cmd_join g guild ch env w) as [[e|] w1] eqn:Ej;
    cbn [fst snd] in *.
  - intros [= <-] _. cbn [content]. split_and!; try done.
    + destruct (voice_client guild) as [vc|].
      * destruct (is_connected vc).
        -- destruct (bool_decide (channel vc = ch)); [done|].
           destruct (move_raises env); by destruct Hcases as (? & ? & ?).
        -- destruct (connect_raises env); by destruct Hcases as (? & ? & ?).
      * destruct (connect_raises env); by destruct Hcases as (? & ? & ?).
    + by intros [?|?].
    + intros e' _.
      destruct (voice_client guild) as [vc|].
      * destruct (is_connected vc).
        -- destruct (bool_decide (channel vc = ch)); [done|].
           destruct (move_raises env); by destruct Hcases as (? & ? & ?).
        -- destruct (connect_raises env); by destruct Hcases as (? & ? & ?).
      * destruct (connect_raises env); by destruct Hcases as (? & ? & ?).
  - destruct (fetched env) as [e|song].
    + intros [= <-] _. cbn [content]. split_and!; try done.
      * destruct (voice_client guild) as [vc|].
        -- destruct (is_connected vc).
           ++ destruct (bool_decide (channel vc = ch)).
              ** injection Hcases as <-. by rewrite app_nil_r.
              ** destruct (move_raises env); by destruct Hcases as (? & ? & ?).
           ++ destruct (connect_raises env); by destruct Hcases as (? & ? & ?).
        -- destruct (connect_raises env); by destruct Hcases as (? & ? & ?).
      * by intros [?|?].
      * intros e' g0 guild0 ch0 _ [= <- <-] [= <-].
        destruct (voice_client guild) as [vc|] eqn:Hvc.
        -- destruct (is_connected vc).
           ++ destruct (bool_decide (channel vc = ch)) eqn:Hsame.
              ** injection Hcases as <-.
                 apply bool_decide_eq_true in Hsame. subst ch.
                 cbn [snd].
                 by rewrite (sink_of_known _ _ _ H), Hvc, with_channel_same.
              ** destruct (move_raises env); by destruct Hcases as (? & ? & ?).
           ++ destruct (connect_raises env); by destruct Hcases as (? & ? & ?).
        -- destruct (connect_raises env); by destruct Hcases as (? & ? & ?).
    + unfold play_cmd_enqueue, play_cmd_decide.
      destruct (negb (busy _)).
      * destruct (start_next_song build_raises play_raises g _) as [[?|] ?];
          cbn [fst]; [done|]. by intros [= <-].
      * cbn [fst]. by intros [= <-].
Qed.

(** X10. When the text cannot be resolved ([yt_dlp] raises, the list of
    entries is empty, or the entry read has no ["url"]), [play_cmd] for
    that text answers with a refusal and queues no song.  Which refusal is
    decided by the join that comes first.  When the bot has to connect (no
    voice client, or one that is not connected) or to move (connected in
    another channel) and that attempt raises, the answer is "couldn't
    join" with the error of the attempt, and the guilds are as they were.
    In every other case the answer is "couldn't get audio" with the error
    raised for the text, and the bot has joined all the same: it is left
    connected to the channel of the user.  The transport got the one
    attempt, if any, and nothing else. *)
Theorem unresolved_text_is_refused
    (extract_info : string -> Exception + Info)
    (connect_exc move_exc : option Exception) (i : Interaction)
    (text : string) (w : World) (g : Z) (guild : Guild) (ch : Z)
    (exc : Exception) :
  interaction_guild i w = Some (g, guild) →
  user_channel i = Some ch →
  (extract_info text = inl exc
   ∨ ∃ info, extract_info text = inr info
       ∧ (entries info = Some [] ∧ exc = Raised "list index out of range"
          ∨ ∃ entry,
              match entries info with
              | Some es => head es = Some entry
              | None => own info = entry
              end
              ∧ info_url entry = None ∧ exc = Raised "'url'")) →
  let r := (play_cmd_url build_raises play_raises extract_info connect_exc move_exc
              i text w).1 in
  let w' := (play_cmd_url build_raises play_raises extract_info connect_exc move_exc
               i text w).2 in
  let fresh := {| connected := true; channel := ch; player := NoPlayer |} in
  let refusal (m : Message) : Exception + Reply :=
    inr {| content := m; ephemeral := true |} in
  let attempt :=
    match voice_client guild with
    | Some vc =>
      if is_connected vc then
        if bool_decide (channel vc = ch) then None
        else Some (CallMoveTo g ch, move_exc, with_channel ch vc)
      else Some (CallConnect g ch, connect_exc, fresh)
    | None => Some (CallConnect g ch, connect_exc, fresh)
    end in
  fetch_song extract_info text (user i) = inl exc
  ∧ (∃ reply, r = inr reply ∧ ephemeral reply = true
       ∧ (content reply = CouldntGetAudio exc
          ∨ ∃ e, content reply = CouldntJoin e))
  ∧ music_queues w' = music_queues w
  ∧ stdout w' = stdout w
  ∧ match attempt with
    | None => r = refusal (CouldntGetAudio exc) ∧ w' = w
    | Some (c, Some e, _) =>
      r = refusal (CouldntJoin e) ∧ guilds w' = guilds w
      ∧ calls w' = calls w ++ [c]
    | Some (c, None, vc') =>
      r = refusal (CouldntGetAudio exc) ∧ sink_of g w' = Some vc'
      ∧ calls w' = calls w ++ [c]
    end
  ∧ (voice_client guild = None → connect_exc = None →
     r = refusal (CouldntGetAudio exc)
     ∧ sink_of g w' = Some fresh
     ∧ calls w' = calls w ++ [CallConnect g ch]).
Proof.
  intros Hi Hch Hfail. simpl.
  destruct (interaction_guild_known _ _ _ _ Hi) as [Hid H].
  assert (fetch_song extract_info text (user i) = inl exc) as Hf.
  { destruct Hfail as [He | (info & He & [[Hes ->] | (entry & Hp & Hu & ->)])].
    - unfold fetch_song. by rewrite He.
    - unfold fetch_song. by rewrite He, Hes.
    - by rewrite (fetch_song_on_entry _ _ _ _ _ He Hp), Hu. }
  split; [done|].
  unfold play_cmd_url, play_cmd. rewrite Hi, Hch. cbn [fetched]. rewrite Hf.
  pose proof (play_cmd_join_cases g guild ch
                {| connect_raises := connect_exc; move_raises := move_exc;
                   fetched := inl exc |} w H) as (Hm & Hs & Hcases).
  cbn [connect_raises move_raises] in Hcases.
  split_and!.
  - destruct (play_cmd_join _ _ _ _ _) as [[e|] w1]; eexists;
      (split; [done|]); (split; [done|]); [right; by eexists | by left].
  - by destruct (play_cmd_join _ _ _ _ _) as [[e|] w1].
  - by destruct (play_cmd_join _ _ _ _ _) as [[e|] w1].
  - destruct (voice_client guild) as [vc|].
    + destruct (is_connected vc).
      * destruct (bool_decide (channel vc = ch)); [by rewrite Hcases|].
        destruct move_exc;
          destruct (play_cmd_join _ _ _ _ _) as [o w1];
          cbn [fst snd] in Hcases; by destruct Hcases as (-> & ? & ?).
      * destruct connect_exc;
          destruct (play_cmd_join _ _ _ _ _) as [o w1];
          cbn [fst snd] in Hcases; by destruct Hcases as (-> & ? & ?).
    + destruct connect_exc;
        destruct (play_cmd_join _ _ _ _ _) as [o w1];
        cbn [fst snd] in Hcases; by destruct Hcases as (-> & ? & ?).
  - intros Hvc ->. unfold play_cmd_join. rewrite Hvc. cbn.
    split_and!; try done.
    by apply (sink_of_set_voice_client g _ guild).
Qed.

(** ** Enqueueing on an idle sink *)


(** ** skip, then the completion signal *)


(** ** leave, twice *)

(** X13. After a [leave_cmd] that disconnected the sink of a known guild,
    the guild has an empty queue and no voice client; a second [leave_cmd]
    is refused as not connected and changes nothing, and a completion
    signal that arrives afterwards starts nothing and leaves the queue
    empty. *)
Theorem leave_twice_is_refused (i : Interaction) (w : World) (g : Z)
    (guild : Guild) (vc : VoiceClient) :
  interaction_guild i w = Some (g, guild) →
  voice_client guild = Some vc → is_connected vc = true →
  let w' := (leave_cmd i w).2 in
  queue_of g w' = [] ∧ sink_of g w' = None
  ∧ leave_cmd i w' = ({| content := NotConnected; ephemeral := true |}, w')
  ∧ ∀ error,
      queue_of g (_after_play build_raises play_raises g error w') = []
      ∧ sink_of g (_after_play build_raises play_raises g error w') = None
      ∧ calls (_after_play build_raises play_raises g error w') = calls w'.
Proof.
  intros Hi Hvc Hc. simpl.
  destruct (interaction_guild_known _ _ _ _ Hi) as [Hid H].
  rewrite (leave_cmd_unfold _ _ _ _ Hi), Hvc, Hc. cbn [snd].
  destruct (stop_cmd_clear_facts g w) as (Hm & Hg & _).
  set (w1 := stop_cmd_clear g w) in *.
  set (w' := set_voice_client g None (call (CallDisconnect g) w1)).
  assert (get_guild g w1 = Some guild) as H1
    by (unfold get_guild; by rewrite Hg).
  assert (music_queues w' !! g = Some []) as Hl
    by (unfold w'; simpl; by rewrite Hm, lookup_insert_eq).
  assert (queue_of g w' = []) as Hq by (by apply queue_of_lookup).
  assert (sink_of g w' = None) as Hs
    by (by apply (sink_of_set_voice_client g _ guild)).
  assert (get_guild g w' = Some (with_voice_client None guild)) as H'.
  { unfold w', get_guild, set_voice_client. simpl.
    unfold get_guild in H1. by rewrite lookup_alter_eq, H1. }
  split_and!; try done.
  - assert (interaction_guild i w' = Some (g, with_voice_client None guild))
      as Hi'.
    { unfold interaction_guild. rewrite Hid. unfold get_guild in H'.
      by rewrite H'. }
    rewrite (leave_cmd_unfold _ _ _ _ Hi'). simpl.
    by rewrite (stop_cmd_clear_fixed g w' Hl).
  - intros error.
    destruct (after_play_pop_facts g error w') as (Hq2 & Hg2 & Hc2 & _).
    rewrite Hq in Hq2. simpl in Hq2. unfold _after_play.
    destruct (after_play_next_on_empty build_raises play_raises g _ Hq2)
      as (Hg3 & Hc3 & _ & Hq3).
    rewrite Hq3, Hq2, Hc3, Hc2.
    by rewrite (sink_of_guilds _ _ _ Hg3), (sink_of_guilds _ _ _ Hg2).
Qed.

End OperationFacts.

(** ** format_duration, further *)

Lemma pretty_N_char_is_digit (x : N) : is_digit (pretty_N_char x) = true.
Proof. unfold pretty_N_char. by repeat case_match. Qed.

Lemma pretty_N_go_all_digits (x : N) (s : string) :
  all_digits s = true → all_digits (pretty_N_go x s) = true.
Proof.
  revert s. induction (N.lt_wf_0 x) as [x _ IH]; intros s Hs.
  destruct (decide (x = 0)%N) as [->|Hx]; [by rewrite pretty_N_go_0|].
  rewrite pretty_N_go_step by lia. apply IH.
  - apply N.div_lt; lia.
  - simpl. by rewrite pretty_N_char_is_digit, Hs.
Qed.

(** The decimal text of a number that is not negative is made of digits. *)
Lemma pretty_Z_all_digits (z : Z) : 0 ≤ z → all_digits (pretty z) = true.
Proof.
  intros Hz. destruct z as [|p|p]; [done| |lia].
  unfold pretty, pretty_Z, pretty, pretty_positive, pretty, pretty_N.
  case_decide; [done|]. by apply pretty_N_go_all_digits.
Qed.

(** Texts of digits followed by a colon: the colon is found in one place
    only. *)
Lemma digits_colon_split (s1 s2 r1 r2 : string) :
  all_digits s1 = true → all_digits s2 = true →
  s1 +:+ String ":" r1 = s2 +:+ String ":" r2 → s1 = s2 ∧ r1 = r2.
Proof.
  revert s2. induction s1 as [|c1 s1 IH]; intros [|c2 s2]; simpl.
  - intros _ _ [= ->]. done.
  - intros _ Hd [= <- _]. done.
  - intros Hd _ [= -> _]. done.
  - intros [_ H1]%andb_true_iff [_ H2]%andb_true_iff [= -> Heq].
    destruct (IH s2 H1 H2 Heq) as [-> ->]. done.
Qed.

Lemma digit_char_inj (x y : Z) :
  0 ≤ x < 10 → 0 ≤ y < 10 → digit_char x = digit_char y → x = y.
Proof.
  intros Hx Hy Heq. apply (f_equal nat_of_ascii) in Heq.
  unfold digit_char in Heq. rewrite !nat_ascii_embedding in Heq by lia. lia.
Qed.

Lemma two_digits_inj (a b : Z) :
  0 ≤ a < 60 → 0 ≤ b < 60 → two_digits a = two_digits b → a = b.
Proof.
  intros Ha Hb. unfold two_digits. intros [= H1 H2].
  apply digit_char_inj in H1;
    [|split; [apply Z.div_pos; lia | apply Z.div_lt_upper_bound; lia]..].
  apply digit_char_inj in H2; [|apply Z.mod_pos_bound; lia..].
  rewrite (Z.div_mod a 10), (Z.div_mod b 10) by lia. lia.
Qed.

Lemma m_ss_split (n : Z) :
  m_ss n = pretty (n `div` 60) +:+ String ":" (two_digits (n `mod` 60)).
Proof. reflexivity. Qed.

Lemma h_mm_ss_split (n : Z) :
  h_mm_ss n
  = pretty (n `div` 3600)
      +:+ String ":" (two_digits ((n `div` 60) `mod` 60)
                        +:+ String ":" (two_digits (n `mod` 60))).
Proof. reflexivity. Qed.

(** X14. Two different positive durations are never shown as the same
    text. *)
Theorem format_duration_tells_durations_apart (n1 n2 : Z) :
  0 < n1 → 0 < n2 →
  format_duration (Some n1) = format_duration (Some n2) → n1 = n2.
Proof.
  intros H1 H2.
  assert (∀ n, 0 < n → 0 ≤ n `div` 60
                       ∧ 0 ≤ n `div` 3600
                       ∧ 0 ≤ (n `div` 60) `mod` 60 < 60
                       ∧ 0 ≤ n `mod` 60 < 60
                       ∧ n = 3600 * (n `div` 3600)
                             + 60 * ((n `div` 60) `mod` 60) + n `mod` 60
                       ∧ n = 60 * (n `div` 60) + n `mod` 60) as Hparts.
  { intros n Hn.
    pose proof (Z.div_mod n 60 ltac:(lia)).
    pose proof (Z.div_mod (n `div` 60) 60 ltac:(lia)) as Hd.
    rewrite Z.div_div in Hd by lia. change (60 * 60) with 3600 in Hd.
    pose proof (Z.mod_pos_bound n 60 ltac:(lia)).
    pose proof (Z.mod_pos_bound (n `div` 60) 60 ltac:(lia)).
    assert (0 ≤ n `div` 60) by (apply Z.div_pos; lia).
    assert (0 ≤ n `div` 3600) by (apply Z.div_pos; lia).
    lia. }
  destruct (Hparts n1 H1) as (Ha1 & Hb1 & Hm1 & Hs1 & He1 & Hf1).
  destruct (Hparts n2 H2) as (Ha2 & Hb2 & Hm2 & Hs2 & He2 & Hf2).
  destruct (decide (3600 ≤ n1)) as [Hl1|Hl1];
    destruct (decide (3600 ≤ n2)) as [Hl2|Hl2];
    rewrite ?(format_duration_hours n1), ?(format_duration_hours n2),
      ?(format_duration_minutes n1), ?(format_duration_minutes n2) by lia;
    rewrite ?m_ss_split, ?h_mm_ss_split; intros Heq;
    apply digits_colon_split in Heq as [Hp Hr];
    try (by apply pretty_Z_all_digits).
  - apply (inj pretty) in Hp.
    unfold two_digits in Hr. cbn [append] in Hr.
    injection Hr as Hr1 Hr2 Hr3 Hr4.
    assert (two_digits ((n1 `div` 60) `mod` 60)
            = two_digits ((n2 `div` 60) `mod` 60)) as Hm
      by (unfold two_digits; congruence).
    assert (two_digits (n1 `mod` 60) = two_digits (n2 `mod` 60)) as Hs
      by (unfold two_digits; congruence).
    apply two_digits_inj in Hm; [|done..].
    apply two_digits_inj in Hs; [|done..]. lia.
  - unfold two_digits in Hr. cbn [append] in Hr. discriminate.
  - unfold two_digits in Hr. cbn [append] in Hr. discriminate.
  - apply (inj pretty) in Hp. apply two_digits_inj in Hr; [|done..]. lia.
Qed.

(** X15. A negative duration is not refused: it is shown with the hours,
    minutes and seconds of floor division, so with a minus sign in front
    and with minutes and seconds that count up from the hour below. *)
Theorem format_duration_of_a_negative (n : Z) :
  n < 0 →
  format_duration (Some n) = h_mm_ss n
  ∧ n `div` 3600 < 0
  ∧ ∃ rest, format_duration (Some n) = String "-" rest.
Proof.
  intros Hn.
  assert (n `div` 3600 < 0) as Hh by (apply Z.div_lt_upper_bound; lia).
  assert (format_duration (Some n) = h_mm_ss n) as Hf.
  { rewrite format_duration_nonzero by lia.
    rewrite Z.div_div by lia. change (60 * 60) with 3600.
    rewrite (proj2 (Z.eqb_neq _ 0)) by lia. cbn [negb]. unfold h_mm_ss.
    by rewrite !fmt_02d_two_digits by (apply Z.mod_pos_bound; lia). }
  split_and!; [done | done |]. rewrite Hf. unfold h_mm_ss.
  destruct (n `div` 3600) as [|p|p]; [lia | lia |].
  by eexists.
Qed.

(** ** The token *)

(** X16. [main] starts the bot exactly when it has a token that is
    neither empty nor the placeholder, and that token is the one written
    in the file or, only if none is written there, the one of the
    environment.  So the environment variable is ignored whenever the file
    holds a token, and with the placeholder left in the file [main] raises
    whatever the environment says. *)
Theorem main_needs_a_real_token (TOKEN : string) (getenv : option string) :
  (∀ token,
     main TOKEN getenv = inr token
     ↔ token ≠ "" ∧ token ≠ PLACEHOLDER
       ∧ (TOKEN = token ∨ TOKEN = "" ∧ getenv = Some token))
  ∧ (TOKEN ≠ "" → main TOKEN getenv = main TOKEN None)
  ∧ (TOKEN = PLACEHOLDER → ∃ exc, main TOKEN getenv = inl exc).
Proof.
  assert (∀ t token,
            (if decide (t = "") then inl (Raised "You forgot to put your bot token in the code or DISCORD_TOKEN env var.")
             else if decide (t = PLACEHOLDER) then inl (Raised "You forgot to put your bot token in the code or DISCORD_TOKEN env var.")
             else inr t) = (inr token : Exception + string)
            ↔ t = token ∧ token ≠ "" ∧ token ≠ PLACEHOLDER) as Hrun.
  { intros t token. destruct (decide (t = "")) as [->|H1].
    - split; [done | by intros (<- & ? & _)].
    - destruct (decide (t = PLACEHOLDER)) as [->|H2].
      + split; [done | by intros (<- & _ & ?)].
      + split; [by intros [= <-] | by intros (<- & _)]. }
  unfold main, configured_token. split_and!.
  - intros token. destruct (decide (TOKEN = "")) as [->|Hne].
    + destruct getenv as [t|].
      * rewrite Hrun. split.
        -- intros (<- & ? & ?). split_and!; try done. by right.
        -- intros (? & ? & [<- | [_ [= <-]]]); done.
      * split; [done|]. by intros (? & _ & [<- | [_ ?]]).
    + rewrite Hrun. split.
      * intros (<- & ? & ?). split_and!; try done. by left.
      * intros (? & ? & [<- | [? _]]); done.
  - intros Hne. by destruct (decide (TOKEN = "")).
  - intros ->. by eexists.
Qed.

(** * The further properties on concrete guilds *)

Lemma operations_leave_other_guilds_alone_witness :
  op_guild (OpStop in_guild_1) ≠ Some 2
  ∧ queue_of 1 (apply_op build_all accept_all (OpStop in_guild_1) two_guilds) = []
  ∧ queue_of 2 (apply_op build_all accept_all (OpStop in_guild_1) two_guilds) = [song_B]
  ∧ sink_of 2 (apply_op build_all accept_all (OpStop in_guild_1) two_guilds)
    = Some (client_playing song_B).
Proof.
  assert (op_guild (OpStop in_guild_1) ≠ Some 2) as Hne by discriminate.
  destruct (operations_leave_other_guilds_alone build_all accept_all
              (OpStop in_guild_1) two_guilds 2 Hne) as [Hq Hs].
  split_and!; [exact Hne | reflexivity | exact Hq | exact Hs].
Defined.

Lemma queues_are_never_removed_witness :
  is_Some (music_queues two_guilds !! 2)
  ∧ is_Some (music_queues
               (apply_ops build_all accept_all
                  [OpLeave in_guild_1; OpCompletion 2 None;
                   OpCompletion 2 None] two_guilds) !! 2).
Proof.
  assert (is_Some (music_queues two_guilds !! 2)) as H
    by (by exists [song_B]).
  split; [exact H|].
  exact (queues_are_never_removed build_all accept_all
           [OpLeave in_guild_1; OpCompletion 2 None; OpCompletion 2 None]
           two_guilds 2 H).
Defined.



Lemma queue_cmd_lists_the_queue_witness :
  let w := world_of (Some (client_playing song_A)) [song_A; song_B] in
  interaction_guild in_guild_1 w
  = Some (1, guild_one (Some (client_playing song_A)))
  ∧ listing (queue_cmd in_guild_1 w).1
    = QueueEmbed
        [ {| line_prefix := PlayingMark; line_title := "A";
             line_link := "https://example.org/a"; line_duration := "3:45";
             line_requester := "alice" |};
          {| line_prefix := Numbered 2; line_title := "B";
             line_link := "https://example.org/b";
             line_duration := "1:02:05"; line_requester := "alice" |} ]
  ∧ guilds (queue_cmd in_guild_1 w).2 = guilds w
  ∧ calls (queue_cmd in_guild_1 w).2 = [].
Proof.
  intros w.
  destruct (queue_cmd_lists_the_queue in_guild_1 w 1
              (guild_one (Some (client_playing song_A))) eq_refl)
    as (_ & _ & _ & Hg & Hc & _).
  split_and!; [reflexivity | vm_compute; reflexivity | exact Hg | exact Hc].
Defined.

Lemma enqueue_position_is_listing_number_witness :
  let w := world_of (Some (client_playing song_A)) [song_A] in
  let w1 := (play_cmd_enqueue build_all accept_all 1 song_B w).2 in
  busy (sink_of 1 w) = true
  ∧ ∃ lines line,
      (play_cmd_enqueue build_all accept_all 1 song_B w).1
      = inr {| content := AddedToQueue 2 song_B; ephemeral := false |}
      ∧ listing (queue_cmd in_guild_1 w1).1 = QueueEmbed lines
      ∧ lines !! 1%nat = Some line
      ∧ line_title line = "B"%string
      ∧ line_prefix line = Numbered 2.
Proof.
  intros w w1. split; [reflexivity|].
  destruct (enqueue_position_is_listing_number build_all accept_all 1 song_B w
              in_guild_1 (guild_one (Some (client_playing song_A)))
              eq_refl eq_refl)
    as (p & lines & line & Hr & Hl & Hp & Hk & Ht & _ & Hn).
  assert (p = 2%nat) as -> by (vm_compute in Hr; by injection Hr).
  exists lines, line. split_and!;
    [exact Hr | exact Hl | exact Hk | exact Ht | apply Hn; lia].
Defined.

Lemma fetch_song_reads_first_entry_witness :
  fetch_song extract_examples "b songs" alice
  = inr {| url := "b songs"; title := "B";
           webpage_url := "https://example.org/b"; duration := 3725;
           audio_url := "stream-b"; requested_by := alice |}
  ∧ fetch_song extract_examples "b songs" alice
    = fetch_song (λ _, inr {| entries := None; own := entry_B |})
        "b songs" alice.
Proof.
  destruct (fetch_song_reads_first_entry extract_examples "b songs" alice
              {| entries := Some [entry_B; entry_bare]; own := entry_no_url |}
              entry_B [entry_bare] eq_refl eq_refl) as [Heq _].
  split; [reflexivity | exact Heq].
Defined.

Lemma fetch_song_fills_missing_metadata_witness :
  ∃ song,
    fetch_song extract_examples "bare" alice = inr song
    ∧ url song = "bare"%string
    ∧ requested_by song = alice
    ∧ title song = "Unknown title"%string
    ∧ webpage_url song = "bare"%string
    ∧ duration song = 0
    ∧ line_duration (queue_line None 1 song) = "unknown"%string.
Proof.
  destruct (fetch_song_fills_missing_metadata extract_examples "bare" alice
              {| entries := None; own := entry_bare |} entry_bare "stream-x"
              eq_refl eq_refl eq_refl)
    as (song & Hf & Hu & Hr & _ & Ht & Hl & Hd & _).
  exists song. destruct (Hd eq_refl) as [Hz Hk].
  split_and!; [exact Hf | exact Hu | exact Hr | exact (Ht eq_refl)
              | exact (Hl eq_refl) | exact Hz | apply Hk].
Defined.

Lemma refused_play_cmd_queues_nothing_witness :
  let w := world_of None [song_A] in
  let env := cannot_connect song_B in
  (play_cmd build_all accept_all in_guild_1 env w).1
  = inr {| content := CouldntJoin (Raised "timed out"); ephemeral := true |}
  ∧ music_queues (play_cmd build_all accept_all in_guild_1 env w).2
    = music_queues w
  ∧ guilds (play_cmd build_all accept_all in_guild_1 env w).2 = guilds w
  ∧ calls (play_cmd build_all accept_all in_guild_1 env w).2
    = [CallConnect 1 5].
Proof.
  intros w env.
  destruct (refused_play_cmd_queues_nothing build_all accept_all in_guild_1
              env w
              {| content := CouldntJoin (Raised "timed out");
                 ephemeral := true |} eq_refl eq_refl)
    as (Hm & _ & _ & _ & Hc & _ & Hg & _).
  split_and!; [reflexivity | exact Hm | exact (Hg _ eq_refl) | exact Hc].
Defined.

Lemma unresolved_text_is_refused_witness :
  let r := (play_cmd_url build_all accept_all extract_examples None None in_guild_1
              "no stream" fresh_world).1 in
  let w' := (play_cmd_url build_all accept_all extract_examples None None in_guild_1
               "no stream" fresh_world).2 in
  r = inr {| content := CouldntGetAudio (Raised "'url'"); ephemeral := true |}
  ∧ music_queues w' = music_queues fresh_world
  ∧ sink_of 1 w' = Some idle_client
  ∧ calls w' = [CallConnect 1 5].
Proof.
  intros r w'.
  destruct (unresolved_text_is_refused build_all accept_all extract_examples None None
              in_guild_1 "no stream" fresh_world 1 (guild_one None) 5
              (Raised "'url'") eq_refl eq_refl)
    as (_ & _ & Hm & _ & (Hr & Hs & Hc) & _).
  { right. exists {| entries := None; own := entry_no_url |}.
    split; [reflexivity|]. right. exists entry_no_url. by split_and!. }
  split_and!; [exact Hr | exact Hm | exact Hs | exact Hc].
Defined.



Lemma leave_twice_is_refused_witness :
  let w := world_of (Some (client_playing song_A)) [song_A; song_B] in
  let w' := (leave_cmd in_guild_1 w).2 in
  queue_of 1 w' = [] ∧ sink_of 1 w' = None
  ∧ leave_cmd in_guild_1 w'
    = ({| content := NotConnected; ephemeral := true |}, w')
  ∧ queue_of 1 (_after_play build_all accept_all 1 None w') = [].
Proof.
  intros w w'.
  destruct (leave_twice_is_refused build_all accept_all in_guild_1 w 1
              (guild_one (Some (client_playing song_A)))
              (client_playing song_A) eq_refl eq_refl eq_refl)
    as (Hq & Hs & Hl & Ha).
  split_and!; [exact Hq | exact Hs | exact Hl | exact (proj1 (Ha None))].
Defined.

Lemma format_duration_tells_durations_apart_witness :
  format_duration (Some 3725) = format_duration (Some (3600 + 125))
  ∧ 3725 = 3600 + 125.
Proof.
  assert (format_duration (Some 3725) = format_duration (Some (3600 + 125)))
    as Heq by reflexivity.
  split; [exact Heq|].
  apply (format_duration_tells_durations_apart 3725 (3600 + 125));
    [lia | lia | exact Heq].
Defined.

Lemma format_duration_of_a_negative_witness :
  format_duration (Some (-1)) = "-1:59:59"%string
  ∧ format_duration (Some (-3600)) = "-1:00:00"%string.
Proof.
  destruct (format_duration_of_a_negative (-1) ltac:(lia)) as (H1 & _).
  destruct (format_duration_of_a_negative (-3600) ltac:(lia)) as (H2 & _).
  split; [rewrite H1 | rewrite H2]; vm_compute; reflexivity.
Defined.

Lemma main_needs_a_real_token_witness :
  main "" (Some "abc") = inr "abc"%string
  ∧ main PLACEHOLDER (Some "abc") = main PLACEHOLDER None
  ∧ ∃ exc, main PLACEHOLDER (Some "abc") = inl exc.
Proof.
  destruct (main_needs_a_real_token "" (Some "abc")) as (Hrun & _).
  destruct (main_needs_a_real_token PLACEHOLDER (Some "abc"))
    as (_ & Henv & Hph).
  split_and!; [| apply Henv; discriminate | apply Hph; reflexivity].
  apply Hrun. split_and!; [discriminate | discriminate | by right].
Defined.
